(** * Manacher's algorithm: all longest palindromic substrings

    A shallow embedding of [manacher] from [src/manacher.cc] and the
    proofs of its specification.

    Modelling choices.
    - [std::string] is a [list ascii]; [vector<int>] is a [list Z].
    - [int] is the 32-bit two's complement integer.  The length of the
      transformed string is narrowed to it ([int n =
      processed_s.length()], [int_length]): from [2^30] input characters
      on [n] is negative or has wrapped around.  [vector<int> p(n, 0)]
      converts [n] to a size and throws [std::length_error] when it was
      negative ([new_vector], the fault [LengthError]).
    - The [int] arithmetic of the loop body of the pass wraps around
      ([int_add], [int_sub], [int_mul]), as the compiled code does (the
      language leaves signed overflow undefined): the product [2 * C]
      leaves [int] once [n] is above [2^30], and the subtraction of [i]
      brings the mirror back.  In the [while] loop, the other two loops
      and the loop counters every value is between [-1] and [n], so the
      arithmetic there is exact.
    - Every subscript ([processed_s[k]], [p[k]]) and [substr] is a checked
      operation of the [outcome] monad: leaving the container is the fault
      [OutOfBounds], never a default value.
    - The [for] and [while] loops re-test their guard at every round, as in
      the source, under a round budget; exhausting it is the fault
      [OutOfFuel]. *)

From Stdlib Require Import ZArith Lia Ascii String.
From stdpp Require Import base tactics option list list_numbers sorting.

Local Open Scope Z_scope.

(** ** Outcomes of a run *)

Inductive fault : Type :=
| OutOfBounds
| OutOfFuel
| LengthError.

Inductive outcome (A : Type) : Type :=
| Ok (a : A)
| Fail (f : fault).

Arguments Ok {A} a.
Arguments Fail {A} f.

#[global] Instance outcome_ret : MRet outcome := λ A a, Ok a.

#[global] Instance outcome_bind : MBind outcome := λ A B k c,
  match c with
  | Ok a => k a
  | Fail f => Fail f
  end.

(** ** [int] *)

Definition INT_MAX : Z := 2147483647.
Definition INT_MIN : Z := -2147483648.

(** Conversion to [int]: the value modulo [2^32] that lies between
    [INT_MIN] and [INT_MAX]. *)
Definition to_int (x : Z) : Z := (x - INT_MIN) mod 4294967296 + INT_MIN.

(** [a + b], [a - b] and [a * b] on [int]s: a result that leaves [int]
    wraps around. *)
Definition int_add (a b : Z) : Z := to_int (a + b).
Definition int_sub (a b : Z) : Z := to_int (a - b).
Definition int_mul (a b : Z) : Z := to_int (a * b).

Arguments to_int : simpl never.
Arguments int_add : simpl never.
Arguments int_sub : simpl never.
Arguments int_mul : simpl never.

(** ** Containers *)

(** [v.length()] converted to [int] (line 28). *)
Definition int_length {A : Type} (v : list A) : Z :=
  to_int (Z.of_nat (length v)).

(** [std::string] of [char]. *)
Abbreviation str := (list ascii).

(** [v[k]] for an [int] subscript [k]. *)
Definition index {A : Type} (v : list A) (k : Z) : outcome A :=
  if k <? 0 then Fail OutOfBounds
  else match v !! Z.to_nat k with
       | Some x => Ok x
       | None => Fail OutOfBounds
       end.

(** [v[k] = x]. *)
Definition store {A : Type} (v : list A) (k : Z) (x : A) : outcome (list A) :=
  if (0 <=? k) && (k <? Z.of_nat (length v))
  then Ok (<[Z.to_nat k := x]> v)
  else Fail OutOfBounds.

(** [vector<int> p(n, x)] for an [int] size [n]: the size is converted to
    [size_t]; a negative [n] becomes a size above [max_size()] and the
    constructor throws [std::length_error]. *)
Definition new_vector (n : Z) (x : Z) : outcome (list Z) :=
  if n <? 0 then Fail LengthError
  else Ok (replicate (Z.to_nat n) x).

(** [s.substr(pos, len)] with [int] arguments converted to [size_t]: a
    negative argument becomes a huge unsigned one.  [substr] throws
    [out_of_range] when [pos > s.size()] and otherwise returns the
    characters [[pos, min(pos + len, size))]. *)
Definition substr (s : str) (pos len : Z) : outcome str :=
  if (pos <? 0) || (Z.of_nat (length s) <? pos) then Fail OutOfBounds
  else if len <? 0 then Ok (drop (Z.to_nat pos) s)
  else Ok (take (Z.to_nat len) (drop (Z.to_nat pos) s)).

(** ** Loops *)

(** [for (int i = lo; i < hi; ++i) body] *)
Fixpoint for_loop {St : Type} (fuel : nat) (i hi : Z)
    (body : Z → St → outcome St) (st : St) : outcome St :=
  match fuel with
  | O => Fail OutOfFuel
  | S fuel' =>
      if i <? hi
      then st' ← body i st; for_loop fuel' (i + 1) hi body st'
      else Ok st
  end.

(** ** The transformed string (lines 22-26) *)

Definition sep : ascii := "#"%char.

Definition preprocess (s : str) : str :=
  fold_left (fun processed_s c => (processed_s ++ [c]) ++ [sep]) s [sep].

(** ** The radius pass (lines 28-50) *)

Record pass_state : Type := PassState {
  p : list Z;   (* radius array *)
  C : Z;        (* centre of the rightmost palindrome found so far *)
  R : Z         (* its right boundary *)
}.

(** The [while] loop of line 41.  [&&] is evaluated left to right and
    stops at the first false operand, so the two characters are only read
    once both bound tests have passed. *)
Fixpoint expand (fuel : nat) (processed_s : str) (n i : Z) (p : list Z)
    : outcome (list Z) :=
  match fuel with
  | O => Fail OutOfFuel
  | S fuel' =>
      pi ← index p i;
      if (i - (1 + pi) >=? 0) && (i + (1 + pi) <? n)
      then
        a ← index processed_s (i - (1 + pi));
        b ← index processed_s (i + (1 + pi));
        if Ascii.eqb a b
        then p' ← store p i (pi + 1); expand fuel' processed_s n i p'
        else Ok p
      else Ok p
  end.

(** The body of the [for] loop of line 34, with lines 35, 37, 46 and 48
    in [int] arithmetic. *)
Definition pass_body (fuel : nat) (processed_s : str) (n : Z) (i : Z)
    (st : pass_state) : outcome pass_state :=
  let i_mirror := int_sub (int_mul 2 (C st)) i in
  p1 ← (if R st >? i
         then pm ← index (p st) i_mirror;
              store (p st) i (Z.min (int_sub (R st) i) pm)
         else Ok (p st));
  p2 ← expand fuel processed_s n i p1;
  pi ← index p2 i;
  if int_add i pi >? R st
  then Ok (PassState p2 i (int_add i pi))
  else Ok (PassState p2 (C st) (R st)).

Definition radius_pass (fuel : nat) (processed_s : str) : outcome pass_state :=
  let n := int_length processed_s in
  p0 ← new_vector n 0;
  for_loop fuel 1 (n - 1) (pass_body fuel processed_s n) (PassState p0 0 0).

(** ** The largest radius (lines 52-57) *)

Definition max_body (p : list Z) (i : Z) (maxLen : Z) : outcome Z :=
  pi ← index p i;
  if pi >? maxLen then Ok pi else Ok maxLen.

Definition max_radius (fuel : nat) (p : list Z) (n : Z) : outcome Z :=
  for_loop fuel 1 (n - 1) (max_body p) 0.

(** ** Extraction (lines 58-64) *)

(** An element of [longestPalindromes], together with the [start_index]
    it was cut at (a ghost field: the source keeps the text only). *)
Record entry : Type := Entry {
  start_index : Z;
  text : str
}.

Definition extract_body (s : str) (p : list Z) (maxLen : Z) (i : Z)
    (longestPalindromes : list entry) : outcome (list entry) :=
  pi ← index p i;
  if pi =? maxLen
  then
    let start_index := (i - maxLen) ÷ 2 in
    sub ← substr s start_index maxLen;
    Ok (longestPalindromes ++ [Entry start_index sub])
  else Ok longestPalindromes.

Definition extract (fuel : nat) (s : str) (p : list Z) (n maxLen : Z)
    : outcome (list entry) :=
  for_loop fuel 1 (n - 1) (extract_body s p maxLen) [].

(** ** [manacher] *)

(** The three phases, with the entries kept. *)
Definition manacher_entries (fuel : nat) (s : str) : outcome (list entry) :=
  let processed_s := preprocess s in
  let n := int_length processed_s in
  st ← radius_pass fuel processed_s;
  maxLen ← max_radius fuel (p st) n;
  extract fuel s (p st) n maxLen.

Definition manacher_fuel (fuel : nat) (s : str) : outcome (list str) :=
  manacher_entries fuel s ≫= λ es : list entry, Ok (text <$> es).

(** No loop of [manacher] runs more rounds than the transformed string has
    characters; that is the budget. *)
Definition manacher (s : str) : outcome (list str) :=
  manacher_fuel (length (preprocess s)) s.

(** String literals for the tests. *)
Definition lit (s : string) : str := list_ascii_of_string s.

(** * Vocabulary of the specification *)

(** The radius stored at [j], read without a check (for statements). *)
Definition rad (p : list Z) (j : Z) : Z := default 0 (p !! Z.to_nat j).

(** The length of the transformed string of [s] is an [int]. *)
Definition int_fits (s : str) : Prop :=
  2 * Z.of_nat (length s) + 1 ≤ INT_MAX.

(** [refines c c']: when the run [c] returns, the run [c'] returns the
    same. *)
Definition refines {A : Type} (c c' : outcome A) : Prop :=
  ∀ a, c = Ok a → c' = Ok a.

(** [approx c c']: the run [c] either exhausted its budget or ended as
    [c'] did. *)
Definition approx {A : Type} (c c' : outcome A) : Prop :=
  c = Fail OutOfFuel ∨ c = c'.

(** ** Radii of palindromes in a string *)

(** The characters at distance [1..r] on both sides of [c] agree. *)
Definition sym_at (T : str) (c r : Z) : Prop :=
  ∀ k, 1 ≤ k ≤ r → T !! Z.to_nat (c - k) = T !! Z.to_nat (c + k).

(** [r] is the radius of a palindrome of [T] centred at [c]. *)
Definition radius_ok (T : str) (c r : Z) : Prop :=
  0 ≤ r ∧ r ≤ c ∧ c + r < Z.of_nat (length T) ∧ sym_at T c r.

(** [r] is the largest such radius. *)
Definition radius_max (T : str) (c r : Z) : Prop :=
  radius_ok T c r ∧ ¬ radius_ok T c (r + 1).

(** ** Palindromes *)

Definition palindrome {A : Type} (l : list A) : Prop := reverse l = l.

(** [sub l a len]: the [len] elements of [l] from position [a]. *)
Definition sub {A : Type} (l : list A) (a len : nat) : list A :=
  take len (drop a l).


(** A palindromic substring of [s]: [len >= 1] characters from position
    [a] that read the same in both directions. *)
Definition pal_substring (s : str) (a len : nat) : Prop :=
  (1 ≤ len)%nat ∧ (a + len ≤ length s)%nat ∧ palindrome (sub s a len).

(** ** The transformed string *)

(** The characters of [s], each followed by a separator. *)
Fixpoint interleave (s : str) : str :=
  match s with
  | [] => []
  | c :: s' => c :: sep :: interleave s'
  end.

(** ** The loops of [manacher] *)

(** The state the radius pass starts from. *)
Definition pass_init (n : Z) : pass_state :=
  PassState (replicate (Z.to_nat n) 0) 0 0.

(** The invariant of the [for] loop of line 34, before round [i]. *)
Definition pass_inv (T : str) (i : Z) (st : pass_state) : Prop :=
  Z.of_nat (length (p st)) = Z.of_nat (length T) ∧
  (∀ j, 0 ≤ j < Z.of_nat (length T) → radius_ok T j (rad (p st) j)) ∧
  (∀ j, 1 ≤ j < i → ¬ radius_ok T j (rad (p st) j + 1)) ∧
  (∀ j, i ≤ j < Z.of_nat (length T) → rad (p st) j = 0) ∧
  0 ≤ C st < i ∧
  R st = C st + rad (p st) (C st).

(** What the pass leaves in [p]. *)
Definition pass_post (T : str) (st : pass_state) : Prop :=
  Z.of_nat (length (p st)) = Z.of_nat (length T) ∧
  ∀ j, 0 ≤ j < Z.of_nat (length T) → radius_max T j (rad (p st) j).

(** [m] is the largest of the radii at the interior centres [1 .. n-2]
    (and [0] when there is none). *)
Definition largest_interior (p : list Z) (n m : Z) : Prop :=
  0 ≤ m ∧
  (∀ j, 1 ≤ j < n - 1 → rad p j ≤ m) ∧
  (m = 0 ∨ ∃ j, 1 ≤ j < n - 1 ∧ rad p j = m).

(** The interior centres whose radius is [maxLen], in increasing order. *)
Definition centres (p : list Z) (n maxLen : Z) : list Z :=
  filter (λ i, rad p i = maxLen) (seqZ 1 (n - 2)).

(** The entry pushed at centre [i]. *)
Definition entry_at (s : str) (maxLen i : Z) : entry :=
  Entry ((i - maxLen) ÷ 2)
        (sub s (Z.to_nat ((i - maxLen) ÷ 2)) (Z.to_nat maxLen)).

(** The facts about one complete run on an input whose transformed
    length is an [int] that the theorems below use. *)
Definition run_facts (s : str) (fuel : nat) (st : pass_state) (maxLen : Z)
    : Prop :=
  radius_pass fuel (preprocess s) = Ok st ∧
  pass_post (preprocess s) st ∧
  max_radius fuel (p st) (Z.of_nat (length (preprocess s))) = Ok maxLen ∧
  largest_interior (p st) (Z.of_nat (length (preprocess s))) maxLen ∧
  (extract fuel s (p st) (Z.of_nat (length (preprocess s))) maxLen
     = Ok (entry_at s maxLen <$>
           centres (p st) (Z.of_nat (length (preprocess s))) maxLen) ∧
   int_fits s).


(** * The cost of the radius pass *)

(** The [while] loop of line 41 with a ghost counter: [tests] counts the
    evaluations of the guard, the failing one included. *)
Fixpoint expand_tests (fuel : nat) (processed_s : str) (n i : Z)
    (p : list Z) (tests : nat) : outcome (list Z * nat) :=
  match fuel with
  | O => Fail OutOfFuel
  | S fuel' =>
      pi ← index p i;
      if (i - (1 + pi) >=? 0) && (i + (1 + pi) <? n)
      then
        a ← index processed_s (i - (1 + pi));
        b ← index processed_s (i + (1 + pi));
        if Ascii.eqb a b
        then p' ← store p i (pi + 1);
             expand_tests fuel' processed_s n i p' (S tests)
        else Ok (p, S tests)
      else Ok (p, S tests)
  end.

(** The body of the [for] loop of line 34, with the counter. *)
Definition pass_body_tests (fuel : nat) (processed_s : str) (n : Z) (i : Z)
    (stk : pass_state * nat) : outcome (pass_state * nat) :=
  let st := stk.1 in
  let i_mirror := int_sub (int_mul 2 (C st)) i in
  p1 ← (if R st >? i
         then pm ← index (p st) i_mirror;
              store (p st) i (Z.min (int_sub (R st) i) pm)
         else Ok (p st));
  '(p2, tests) ← expand_tests fuel processed_s n i p1 stk.2;
  pi ← index p2 i;
  if int_add i pi >? R st
  then Ok (PassState p2 i (int_add i pi), tests)
  else Ok (PassState p2 (C st) (R st), tests).

Definition radius_pass_tests (fuel : nat) (processed_s : str)
    : outcome (pass_state * nat) :=
  let n := int_length processed_s in
  p0 ← new_vector n 0;
  for_loop fuel 1 (n - 1) (pass_body_tests fuel processed_s n)
    (PassState p0 0 0, O).

(** The invariant of the pass about [C], [R] and the counter, before
    round [i]: [R] is the farthest right end reached by a centre visited
    so far, [C] is the first centre that reaches it, and every guard
    evaluation but one per round has moved [R] one step to the right. *)
Definition reach_inv (T : str) (i : Z) (stk : pass_state * nat) : Prop :=
  pass_inv T i stk.1 ∧
  (∀ j, 0 ≤ j < i → j + rad (p stk.1) j ≤ R stk.1) ∧
  (∀ j, 0 ≤ j < C stk.1 → j + rad (p stk.1) j < R stk.1) ∧
  Z.of_nat stk.2 + 1 ≤ R stk.1 + i.

(** * The driver (lines 68-134) *)

(** [==] on [char]. *)
#[global] Instance char_eq_dec : EqDecision ascii := Ascii.ascii_dec.

Definition quote : ascii := "034"%char.
Definition newline : ascii := "010"%char.

(** The body of [run_sample_manacher] for a value of its local [input];
    the result is the text written to [cout]. *)
Definition run_sample_manacher_on (input : str) : outcome str :=
  result ← manacher input;
  let cout :=
    lit "Longest palindromic substrings of " ++ [quote] ++ input ++ [quote]
      ++ lit ": " in
  match result with
  | [] => Ok (cout ++ lit "No palindromes found." ++ [newline])
  | _ => Ok (fold_left (λ cout palindrome, cout ++ palindrome ++ lit " ")
               result cout ++ [newline])
  end.

Definition run_sample_manacher : outcome str :=
  run_sample_manacher_on (lit "google").

(** How a run of the self-test ends. *)
Inductive test_outcome : Type :=
| Passed
| AssertionFailed (test_case : nat)
| Faulted (f : fault).

(** [vector<string> result = manacher(input); assert(result == expected);]
    followed by the rest of the test. *)
Definition assert_manacher (test_case : nat) (input : str)
    (expected : list str) (rest : test_outcome) : test_outcome :=
  match manacher input with
  | Ok result =>
      if bool_decide (result = expected) then rest
      else AssertionFailed test_case
  | Fail f => Faulted f
  end.

Definition test_manacher : test_outcome :=
  assert_manacher 1 (lit "") [] (
  assert_manacher 2 (lit "a") [lit "a"] (
  assert_manacher 3 (lit "aba") [lit "aba"] (
  assert_manacher 4 (lit "cbbd") [lit "bb"] (
  assert_manacher 5 (lit "bananas") [lit "anana"] (
  assert_manacher 6 (lit "abba") [lit "abba"] (
  assert_manacher 7 (lit "abccba xyzzyx") [lit "abccba"; lit "xyzzyx"] (
  assert_manacher 8 (lit "levelmadamlevel") [lit "levelmadamlevel"] (
  assert_manacher 9 (lit "aabbccddeeff")
    [lit "aa"; lit "bb"; lit "cc"; lit "dd"; lit "ee"; lit "ff"]
  Passed)))))))).

(** How [main] ends: the exit code with the text written to [cout], or
    the assertion or fault that stopped it. *)
Inductive main_outcome : Type :=
| Exit (code : Z) (cout : str)
| Aborted (test_case : nat)
| Crashed (f : fault).

Definition main : main_outcome :=
  match test_manacher with
  | Passed =>
      match run_sample_manacher with
      | Ok cout => Exit 0 cout
      | Fail f => Crashed f
      end
  | AssertionFailed test_case => Aborted test_case
  | Faulted f => Crashed f
  end.

(** * The tests of the source ([test_manacher]) *)

Example manacher_tests :
  manacher (lit "") = Ok [] ∧
  manacher (lit "a") = Ok [lit "a"] ∧
  manacher (lit "aba") = Ok [lit "aba"] ∧
  manacher (lit "cbbd") = Ok [lit "bb"] ∧
  manacher (lit "bananas") = Ok [lit "anana"] ∧
  manacher (lit "abba") = Ok [lit "abba"] ∧
  manacher (lit "abccba xyzzyx") = Ok [lit "abccba"; lit "xyzzyx"] ∧
  manacher (lit "levelmadamlevel") = Ok [lit "levelmadamlevel"] ∧
  manacher (lit "aabbccddeeff")
    = Ok [lit "aa"; lit "bb"; lit "cc"; lit "dd"; lit "ee"; lit "ff"].
Proof. vm_compute. repeat split. Qed.

(** * Reasoning about [int] *)

Lemma to_int_spec (x : Z) :
  ∃ k, to_int x = x + k * 4294967296 ∧ INT_MIN ≤ to_int x ≤ INT_MAX.
Proof.
  unfold to_int, INT_MIN, INT_MAX.
  exists (- ((x - -2147483648) / 4294967296)).
  pose proof (Z.div_mod (x - -2147483648) 4294967296 ltac:(lia)).
  pose proof (Z.mod_pos_bound (x - -2147483648) 4294967296 ltac:(lia)).
  lia.
Qed.

(** An [int] converts to itself. *)
Lemma to_int_small (x : Z) : INT_MIN ≤ x ≤ INT_MAX → to_int x = x.
Proof.
  intros Hx. destruct (to_int_spec x) as (k & Hk & Hr).
  unfold INT_MIN, INT_MAX in *. lia.
Qed.

Lemma to_int_congr (x y k : Z) : y = x + k * 4294967296 → to_int y = to_int x.
Proof.
  intros ->. destruct (to_int_spec x) as (k1 & Hk1 & Hr1).
  destruct (to_int_spec (x + k * 4294967296)) as (k2 & Hk2 & Hr2).
  unfold INT_MIN, INT_MAX in *. lia.
Qed.

Lemma int_add_small (a b : Z) :
  INT_MIN ≤ a + b ≤ INT_MAX → int_add a b = a + b.
Proof. apply to_int_small. Qed.

Lemma int_sub_small (a b : Z) :
  INT_MIN ≤ a - b ≤ INT_MAX → int_sub a b = a - b.
Proof. apply to_int_small. Qed.

(** [2 * C - i] is the mirror whenever the mirror is an [int], also when
    the product [2 * C] has wrapped around. *)
Lemma int_mirror_small (a b c : Z) :
  INT_MIN ≤ a * b - c ≤ INT_MAX → int_sub (int_mul a b) c = a * b - c.
Proof.
  intros H. unfold int_sub, int_mul.
  destruct (to_int_spec (a * b)) as (k & Hk & _).
  rewrite (to_int_congr (a * b - c) (to_int (a * b) - c) k) by lia.
  by apply to_int_small.
Qed.

(** Narrowing the odd length [2 * x + 1]: a result that is not negative
    is the odd length of a prefix. *)
Lemma to_int_odd_prefix (x : Z) :
  0 ≤ x → 0 ≤ to_int (2 * x + 1) →
  ∃ k, to_int (2 * x + 1) = 2 * k + 1 ∧ 0 ≤ k ≤ x ∧ 2 * k + 1 ≤ INT_MAX.
Proof.
  intros Hx Hpos. destruct (to_int_spec (2 * x + 1)) as (j & Hj & Hr).
  exists (x + j * 2147483648). unfold INT_MIN, INT_MAX in *. lia.
Qed.

Lemma to_int_le (x : Z) : INT_MIN ≤ x → to_int x ≤ x.
Proof.
  intros Hx. destruct (to_int_spec x) as (k & Hk & Hr).
  unfold INT_MIN, INT_MAX in *. lia.
Qed.

Lemma int_length_small {A : Type} (v : list A) :
  Z.of_nat (length v) ≤ INT_MAX → int_length v = Z.of_nat (length v).
Proof. intros Hv. apply to_int_small. unfold INT_MIN. lia. Qed.

Lemma int_length_le {A : Type} (v : list A) :
  int_length v ≤ Z.of_nat (length v).
Proof. apply to_int_le. unfold INT_MIN. lia. Qed.

Lemma new_vector_neg (n x : Z) : n < 0 → new_vector n x = Fail LengthError.
Proof. intros Hn. unfold new_vector. by destruct (Z.ltb_spec n 0); [|lia]. Qed.

Lemma new_vector_nonneg (n x : Z) :
  0 ≤ n → new_vector n x = Ok (replicate (Z.to_nat n) x).
Proof. intros Hn. unfold new_vector. by destruct (Z.ltb_spec n 0); [lia|]. Qed.

(** * Reasoning about runs *)

Lemma index_Ok {A : Type} (v : list A) (k : Z) (x : A) :
  index v k = Ok x ↔ 0 ≤ k ∧ v !! Z.to_nat k = Some x.
Proof.
  unfold index. destruct (Z.ltb_spec k 0).
  - split; [discriminate | lia].
  - destruct (v !! Z.to_nat k) as [y|]; split; try discriminate.
    + intros [= ->]. auto.
    + intros [_ [= ->]]. reflexivity.
    + intros [_ ?]. discriminate.
Qed.

Lemma index_in_range {A : Type} (v : list A) (k : Z) :
  0 ≤ k < Z.of_nat (length v) → ∃ x, index v k = Ok x.
Proof.
  intros Hk. destruct (lookup_lt_is_Some_2 v (Z.to_nat k)) as [x Hx]; [lia|].
  exists x. apply index_Ok. split; [lia|done].
Qed.

Lemma index_rad (p : list Z) (k : Z) :
  0 ≤ k < Z.of_nat (length p) → index p k = Ok (rad p k).
Proof.
  intros Hk. destruct (index_in_range p k Hk) as [x Hx]. rewrite Hx.
  apply index_Ok in Hx as [_ Hx]. unfold rad. by rewrite Hx.
Qed.

Lemma store_in_range {A : Type} (v : list A) (k : Z) (x : A) :
  0 ≤ k < Z.of_nat (length v) → store v k x = Ok (<[Z.to_nat k := x]> v).
Proof.
  intros Hk. unfold store.
  destruct (Z.leb_spec 0 k); [|lia].
  destruct (Z.ltb_spec k (Z.of_nat (length v))); [reflexivity|lia].
Qed.

Lemma rad_insert_eq (p : list Z) (k x : Z) :
  0 ≤ k < Z.of_nat (length p) → rad (<[Z.to_nat k := x]> p) k = x.
Proof. intros Hk. unfold rad. rewrite list_lookup_insert_eq by lia. done. Qed.

Lemma rad_insert_ne (p : list Z) (k j x : Z) :
  0 ≤ k → 0 ≤ j → j ≠ k → rad (<[Z.to_nat k := x]> p) j = rad p j.
Proof. intros Hk Hj Hne. unfold rad. rewrite list_lookup_insert_ne by lia. done. Qed.

Lemma rad_replicate (m : nat) (j : Z) : rad (replicate m 0) j = 0.
Proof.
  unfold rad. destruct (replicate m 0 !! Z.to_nat j) as [x|] eqn:Hx; [|done].
  by apply lookup_replicate in Hx as [-> _].
Qed.

(** ** The rule of the [for] loop *)

Section ForLoop.
Context {St : Type}.
Implicit Types (body : Z → St → outcome St) (Inv : Z → St → Prop).

Lemma for_loop_skip body fuel lo hi st :
  hi ≤ lo → fuel ≠ O → for_loop fuel lo hi body st = Ok st.
Proof.
  intros Hle Hfuel. destruct fuel as [|fuel]; [done|]. simpl.
  destruct (Z.ltb_spec lo hi); [lia|done].
Qed.

Lemma for_loop_rule Inv body fuel lo hi st :
  lo ≤ hi →
  (Z.to_nat (hi - lo) < fuel)%nat →
  Inv lo st →
  (∀ i st, lo ≤ i < hi → Inv i st →
     ∃ st', body i st = Ok st' ∧ Inv (i + 1) st') →
  ∃ st', for_loop fuel lo hi body st = Ok st' ∧ Inv hi st'.
Proof.
  intros Hle Hfuel Hinv Hbody.
  revert lo st Hle Hfuel Hinv Hbody.
  induction fuel as [|fuel IH]; intros lo st Hle Hfuel Hinv Hbody; [lia|].
  simpl. destruct (Z.ltb_spec lo hi) as [Hlt|Hge].
  - destruct (Hbody lo st) as (st1 & -> & Hinv1); [lia|done|]. simpl.
    apply IH; [lia|lia|done|].
    intros i st2 Hi. apply Hbody. lia.
  - exists st. split; [done|]. by replace hi with lo by lia.
Qed.
End ForLoop.

(** ** Runs under a smaller budget *)

Lemma approx_refl {A : Type} (c : outcome A) : approx c c.
Proof. by right. Qed.

Lemma approx_bind {A B : Type} (c c' : outcome A) (k k' : A → outcome B) :
  approx c c' → (∀ a, approx (k a) (k' a)) → approx (c ≫= k) (c' ≫= k').
Proof.
  intros [-> | ->] Hk; [by left|].
  destruct c' as [a|f]; simpl; [apply Hk|by right].
Qed.

Lemma approx_Ok {A : Type} (c c' : outcome A) (a : A) :
  approx c c' → c = Ok a → c' = Ok a.
Proof. intros [-> | ->]; [discriminate|done]. Qed.

Lemma approx_for_loop {St : Type} (body body' : Z → St → outcome St)
    (fuel fuel' : nat) (lo hi : Z) (st : St) :
  (fuel ≤ fuel')%nat →
  (∀ i st, approx (body i st) (body' i st)) →
  approx (for_loop fuel lo hi body st) (for_loop fuel' lo hi body' st).
Proof.
  intros Hle Hbody. revert fuel' lo st Hle.
  induction fuel as [|fuel IH]; intros fuel' lo st Hle; [by left|].
  destruct fuel' as [|fuel']; [lia|]. simpl.
  destruct (lo <? hi); [|by right].
  apply approx_bind; [apply Hbody|].
  intros st1. apply IH. lia.
Qed.

Lemma approx_expand (fuel fuel' : nat) (T : str) (n i : Z) (p : list Z) :
  (fuel ≤ fuel')%nat →
  approx (expand fuel T n i p) (expand fuel' T n i p).
Proof.
  intros Hle. revert fuel' p Hle.
  induction fuel as [|fuel IH]; intros fuel' p Hle; [by left|].
  destruct fuel' as [|fuel']; [lia|]. simpl.
  apply approx_bind; [apply approx_refl|]. intros pi.
  destruct (_ && _); [|apply approx_refl].
  apply approx_bind; [apply approx_refl|]. intros a.
  apply approx_bind; [apply approx_refl|]. intros b.
  destruct (Ascii.eqb a b); [|apply approx_refl].
  apply approx_bind; [apply approx_refl|]. intros p'.
  apply IH. lia.
Qed.

Lemma approx_pass_body (fuel fuel' : nat) (T : str) (n i : Z) (st : pass_state) :
  (fuel ≤ fuel')%nat →
  approx (pass_body fuel T n i st) (pass_body fuel' T n i st).
Proof.
  intros Hle. unfold pass_body.
  apply approx_bind; [apply approx_refl|]. intros p1.
  apply approx_bind; [by apply approx_expand|]. intros p2.
  apply approx_refl.
Qed.

Lemma approx_radius_pass (fuel fuel' : nat) (T : str) :
  (fuel ≤ fuel')%nat →
  approx (radius_pass fuel T) (radius_pass fuel' T).
Proof.
  intros Hle. unfold radius_pass.
  apply approx_bind; [apply approx_refl|]. intros p0.
  apply approx_for_loop; [done|]. intros i st. by apply approx_pass_body.
Qed.

Lemma approx_manacher_entries (fuel fuel' : nat) (s : str) :
  (fuel ≤ fuel')%nat →
  approx (manacher_entries fuel s) (manacher_entries fuel' s).
Proof.
  intros Hle. unfold manacher_entries, max_radius, extract.
  apply approx_bind; [by apply approx_radius_pass|].
  intros st. apply approx_bind.
  { apply approx_for_loop; [done|]. intros; apply approx_refl. }
  intros maxLen. apply approx_for_loop; [done|]. intros; apply approx_refl.
Qed.

Lemma approx_manacher_fuel (fuel fuel' : nat) (s : str) :
  (fuel ≤ fuel')%nat →
  approx (manacher_fuel fuel s) (manacher_fuel fuel' s).
Proof.
  intros Hle. unfold manacher_fuel.
  apply approx_bind; [by apply approx_manacher_entries|].
  intros es. apply approx_refl.
Qed.

(** * Radii of palindromes in a string *)

Section Radius.
Variable T : str.
Local Abbreviation n := (Z.of_nat (length T)).

Lemma radius_ok_0 c : 0 ≤ c < n → radius_ok T c 0.
Proof. intros Hc. repeat split; try lia. intros k Hk. lia. Qed.

Lemma radius_ok_le c r r' : radius_ok T c r → 0 ≤ r' ≤ r → radius_ok T c r'.
Proof.
  intros (Hr & Hlo & Hhi & Hsym) Hr'. repeat split; try lia.
  intros k Hk. apply Hsym. lia.
Qed.

Lemma radius_max_ge c m r : radius_max T c m → radius_ok T c r → r ≤ m.
Proof.
  intros [Hm Hnot] Hr. destruct (Z_le_gt_dec r m) as [|Hgt]; [done|].
  destruct Hnot. apply (radius_ok_le c r); [done|].
  destruct Hm as (? & _). lia.
Qed.

Lemma radius_max_unique c r r' : radius_max T c r → radius_max T c r' → r = r'.
Proof.
  intros H H'.
  pose proof (radius_max_ge c r r' H (proj1 H')).
  pose proof (radius_max_ge c r' r H' (proj1 H)). lia.
Qed.

Lemma radius_ok_step c r :
  radius_ok T c r →
  0 ≤ c - (1 + r) → c + (1 + r) < n →
  T !! Z.to_nat (c - (1 + r)) = T !! Z.to_nat (c + (1 + r)) →
  radius_ok T c (r + 1).
Proof.
  intros (Hr & Hlo & Hhi & Hsym) Hlo' Hhi' Heq. repeat split; try lia.
  intros k Hk. destruct (decide (k = r + 1)) as [->|Hne].
  - by replace (r + 1) with (1 + r) by lia.
  - apply Hsym. lia.
Qed.

Lemma radius_ok_step_inv c r :
  0 ≤ r →
  radius_ok T c (r + 1) →
  0 ≤ c - (1 + r) ∧ c + (1 + r) < n ∧
  T !! Z.to_nat (c - (1 + r)) = T !! Z.to_nat (c + (1 + r)).
Proof.
  intros Hr0 (Hr & Hlo & Hhi & Hsym). repeat split; try lia.
  replace (1 + r) with (r + 1) by lia. apply Hsym. lia.
Qed.
End Radius.

(** * The radius pass computes the largest radius at every centre *)

Section Pass.
Variable T : str.
Local Abbreviation n := (Z.of_nat (length T)).

(** The length of [T] is an [int]. *)
Hypothesis Hint : n ≤ INT_MAX.

(** A palindrome centred at [c] is symmetric for offsets of either sign. *)
Lemma radius_ok_reflect c r d :
  radius_ok T c r → - r ≤ d ≤ r →
  T !! Z.to_nat (c - d) = T !! Z.to_nat (c + d).
Proof.
  intros (Hr & Hlo & Hhi & Hsym) Hd.
  destruct (Z.lt_trichotomy d 0) as [Hneg | [-> | Hpos]].
  - replace (c - d) with (c + - d) by lia.
    replace (c + d) with (c - - d) by lia.
    symmetry. apply Hsym. lia.
  - by rewrite Z.sub_0_r, Z.add_0_r.
  - apply Hsym. lia.
Qed.

(** The seed of line 37: inside the palindrome [[c - pc, c + pc]], what
    holds around the mirror of [i] holds around [i]. *)
Lemma mirror_seed c pc i pm :
  radius_ok T c pc →
  c < i < c + pc →
  radius_ok T (2 * c - i) pm →
  radius_ok T i (Z.min (c + pc - i) pm).
Proof.
  intros Hc Hi Hm.
  pose proof Hc as (Hpc & Hclo & Hchi & _).
  pose proof Hm as (Hpm & Hmlo & Hmhi & Hmsym).
  repeat split; try lia.
  intros k Hk.
  (* T[i - k] = T[m + k] = T[m - k] = T[i + k], m the mirror of i *)
  transitivity (T !! Z.to_nat (2 * c - i + k)).
  - replace (i - k) with (c + (i - c - k)) by lia.
    replace (2 * c - i + k) with (c - (i - c - k)) by lia.
    symmetry. apply (radius_ok_reflect c pc); [done|lia].
  - transitivity (T !! Z.to_nat (2 * c - i - k)).
    + symmetry. apply Hmsym. lia.
    + replace (2 * c - i - k) with (c - (i - c + k)) by lia.
      replace (i + k) with (c + (i - c + k)) by lia.
      apply (radius_ok_reflect c pc); [done|lia].
Qed.

(** The [while] loop starts from a radius and stops at the largest. *)
Lemma expand_spec fuel i p :
  Z.of_nat (length p) = n →
  0 ≤ i →
  radius_ok T i (rad p i) →
  (Z.to_nat (n - i - rad p i) ≤ fuel)%nat →
  ∃ p', expand fuel T n i p = Ok p' ∧
        Z.of_nat (length p') = n ∧
        (∀ j, 0 ≤ j → j ≠ i → rad p' j = rad p j) ∧
        rad p i ≤ rad p' i ∧
        radius_max T i (rad p' i).
Proof.
  revert p. induction fuel as [|fuel IH]; intros p Hlen Hi Hok Hfuel.
  { destruct Hok as (? & ? & ? & _). lia. }
  pose proof Hok as (Hr & Hlo & Hhi & _).
  assert (¬ radius_ok T i (rad p i + 1) →
          ∃ p', Ok p = Ok p' ∧ Z.of_nat (length p') = n ∧
                (∀ j, 0 ≤ j → j ≠ i → rad p' j = rad p j) ∧
                rad p i ≤ rad p' i ∧ radius_max T i (rad p' i)) as Hstop.
  { intros Hnot. exists p. split; [done|]. split; [done|].
    split; [done|]. split; [lia|]. by split. }
  simpl. rewrite index_rad by lia. simpl.
  destruct (Z.geb_spec (i - (1 + rad p i)) 0) as [Hge|Hlt]; simpl.
  2:{ apply Hstop. intros Hbad.
      apply radius_ok_step_inv in Hbad; [lia|done]. }
  destruct (Z.ltb_spec (i + (1 + rad p i)) n) as [Hin|Hout].
  2:{ apply Hstop. intros Hbad.
      apply radius_ok_step_inv in Hbad; [lia|done]. }
  destruct (index_in_range T (i - (1 + rad p i))) as [a Ha]; [lia|].
  destruct (index_in_range T (i + (1 + rad p i))) as [b Hb]; [lia|].
  rewrite Ha, Hb. simpl.
  apply index_Ok in Ha as [_ Ha]. apply index_Ok in Hb as [_ Hb].
  destruct (Ascii.eqb_spec a b) as [->|Hne].
  - rewrite store_in_range by lia. simpl.
    set (p1 := <[Z.to_nat i := rad p i + 1]> p).
    assert (rad p1 i = rad p i + 1) as Hp1 by (apply rad_insert_eq; lia).
    destruct (IH p1) as (p' & Hrun & Hlen' & Hsame & Hgrow & Hmax).
    + unfold p1. rewrite length_insert. done.
    + done.
    + rewrite Hp1. apply radius_ok_step; try done; try lia.
      by rewrite Ha, Hb.
    + rewrite Hp1. lia.
    + exists p'. split; [done|]. split; [done|]. split; [|split; [lia|done]].
      intros j Hj Hji. rewrite Hsame by done.
      apply rad_insert_ne; lia.
  - apply Hstop. intros Hbad.
    apply radius_ok_step_inv in Hbad as (_ & _ & Heq); [|done].
    rewrite Ha, Hb in Heq. by injection Heq.
Qed.

Lemma pass_inv_init : (1 ≤ n) → pass_inv T 1 (PassState (replicate (Z.to_nat n) 0) 0 0).
Proof.
  intros Hn. unfold pass_inv. simpl. rewrite length_replicate.
  split; [lia|]. split.
  { intros j Hj. rewrite rad_replicate. by apply radius_ok_0. }
  split; [intros j Hj; lia|].
  split; [intros j Hj; apply rad_replicate|].
  split; [lia|]. by rewrite rad_replicate.
Qed.

Lemma pass_body_spec fuel i st :
  1 ≤ i < n - 1 →
  (Z.to_nat n ≤ fuel)%nat →
  pass_inv T i st →
  ∃ st', pass_body fuel T n i st = Ok st' ∧ pass_inv T (i + 1) st'.
Proof.
  intros Hi Hfuel (Hlen & Hok & Hmax & Hzero & HC & HR).
  unfold pass_body.
  (* the mirror and the distance to [R] are [int]s *)
  pose proof (Hok (C st) ltac:(lia)) as (HpC0 & HClo0 & HChi0 & _).
  rewrite int_mirror_small by (unfold INT_MIN, INT_MAX in *; lia).
  rewrite (int_sub_small (R st) i) by (unfold INT_MIN, INT_MAX in *; lia).
  (* the seed *)
  assert (∃ p1,
    (if R st >? i
     then pm ← index (p st) (2 * C st - i);
          store (p st) i (Z.min (R st - i) pm)
     else Ok (p st)) = Ok p1 ∧
    Z.of_nat (length p1) = n ∧
    (∀ j, 0 ≤ j → j ≠ i → rad p1 j = rad (p st) j) ∧
    radius_ok T i (rad p1 i)) as (p1 & -> & Hlen1 & Hsame1 & Hok1).
  { destruct (Z.gtb_spec (R st) i) as [Hgt|Hle].
    - pose proof (Hok (C st)) as HokC.
      pose proof (HokC ltac:(lia)) as (HpC & HClo & HChi & _).
      rewrite index_rad by lia. simpl.
      rewrite store_in_range by lia.
      eexists. split; [done|]. rewrite length_insert.
      split; [done|]. split.
      + intros j Hj Hji. apply rad_insert_ne; lia.
      + rewrite rad_insert_eq by lia. rewrite HR.
        apply mirror_seed; [apply HokC; lia|lia|apply Hok; lia].
    - exists (p st). split; [done|]. split; [done|]. split; [done|].
      rewrite Hzero by lia. apply radius_ok_0. lia. }
  simpl.
  (* the expansion *)
  destruct (expand_spec fuel i p1) as (p2 & -> & Hlen2 & Hsame2 & _ & Hmax2);
    [done|lia|done| |].
  { destruct Hok1 as (? & _). lia. }
  simpl. rewrite index_rad by lia. simpl.
  pose proof Hmax2 as [(Hr2 & _ & Hhi2 & _) _].
  rewrite !int_add_small by (unfold INT_MIN, INT_MAX in *; lia).
  assert (∀ j, 0 ≤ j → j ≠ i → rad p2 j = rad (p st) j) as Hsame.
  { intros j Hj Hji. rewrite Hsame2, Hsame1 by done. done. }
  assert (∀ j, 0 ≤ j < n → radius_ok T j (rad p2 j)) as Hok2.
  { intros j Hj. destruct (decide (j = i)) as [->|Hji]; [apply Hmax2|].
    rewrite Hsame by lia. by apply Hok. }
  assert (∀ j, 1 ≤ j < i + 1 → ¬ radius_ok T j (rad p2 j + 1)) as Hmax'.
  { intros j Hj. destruct (decide (j = i)) as [->|Hji]; [apply Hmax2|].
    rewrite Hsame by lia. apply Hmax. lia. }
  assert (∀ j, i + 1 ≤ j < n → rad p2 j = 0) as Hzero'.
  { intros j Hj. rewrite Hsame by lia. apply Hzero. lia. }
  destruct (Z.gtb_spec (i + rad p2 i) (R st)) as [Hgt|Hle].
  - eexists. split; [done|]. unfold pass_inv. simpl.
    split; [done|]. split; [done|]. split; [done|]. split; [done|].
    split; [lia|done].
  - eexists. split; [done|]. unfold pass_inv. simpl.
    split; [done|]. split; [done|]. split; [done|]. split; [done|].
    split; [lia|]. rewrite Hsame by lia. done.
Qed.

Lemma radius_pass_spec fuel :
  1 ≤ n →
  (Z.to_nat n ≤ fuel)%nat →
  ∃ st, radius_pass fuel T = Ok st ∧ pass_post T st.
Proof.
  intros Hn Hfuel. unfold radius_pass.
  rewrite int_length_small, new_vector_nonneg by lia. simpl.
  assert (∃ st, for_loop fuel 1 (n - 1) (pass_body fuel T n)
                  (PassState (replicate (Z.to_nat n) 0) 0 0) = Ok st ∧
                pass_inv T (Z.max 1 (n - 1)) st) as (st & Hrun & Hinv).
  { destruct (Z_le_gt_dec 1 (n - 1)) as [Hle|Hgt].
    - rewrite Z.max_r by lia.
      apply for_loop_rule; [lia|lia|by apply pass_inv_init|].
      intros i st Hi Hinv. by apply pass_body_spec.
    - rewrite for_loop_skip by lia.
      eexists. split; [done|]. rewrite Z.max_l by lia.
      by apply pass_inv_init. }
  exists st. split; [done|].
  destruct Hinv as (Hlen & Hok & Hmax & Hzero & _).
  split; [done|]. intros j Hj. split; [by apply Hok|].
  destruct (decide (j = 0)) as [->|Hj0].
  { intros (_ & Hbad & _). pose proof (Hok 0 ltac:(lia)) as (? & _). lia. }
  destruct (decide (j < Z.max 1 (n - 1))) as [Hlt|Hge].
  - apply Hmax. lia.
  - rewrite Hzero by lia. intros (_ & _ & Hbad & _). lia.
Qed.
End Pass.

(** * The transformed string *)

Lemma preprocess_interleave (s : str) : preprocess s = sep :: interleave s.
Proof.
  unfold preprocess.
  assert (∀ acc, fold_left (λ processed_s c, (processed_s ++ [c]) ++ [sep]) s acc
                 = acc ++ interleave s) as H; [|apply H].
  induction s as [|c s IH]; intros acc; simpl.
  - by rewrite app_nil_r.
  - rewrite IH. by rewrite <- !app_assoc.
Qed.

Lemma length_interleave (s : str) : length (interleave s) = (2 * length s)%nat.
Proof. induction s as [|c s IH]; simpl; lia. Qed.

Lemma length_preprocess (s : str) :
  length (preprocess s) = (2 * length s + 1)%nat.
Proof. rewrite preprocess_interleave. simpl. rewrite length_interleave. lia. Qed.

Lemma interleave_lookup_even (s : str) (j : nat) :
  interleave s !! (2 * j)%nat = s !! j.
Proof.
  revert j. induction s as [|c s IH]; intros [|j]; try done.
  replace (2 * S j)%nat with (S (S (2 * j))) by lia. simpl. apply IH.
Qed.

Lemma interleave_lookup_odd (s : str) (j : nat) :
  (j < length s)%nat → interleave s !! (2 * j + 1)%nat = Some sep.
Proof.
  revert j. induction s as [|c s IH]; intros j Hj; simpl in Hj; [lia|].
  destruct j as [|j]; [done|].
  replace (2 * S j + 1)%nat with (S (S (2 * j + 1))) by lia.
  exact (IH j ltac:(lia)).
Qed.

(** Even positions of the transformed string hold separators. *)
Lemma preprocess_lookup_even (s : str) (j : nat) :
  (j ≤ length s)%nat → preprocess s !! (2 * j)%nat = Some sep.
Proof.
  intros Hj. rewrite preprocess_interleave. destruct j as [|j]; [done|].
  replace (2 * S j)%nat with (S (2 * j + 1)) by lia. simpl.
  apply interleave_lookup_odd. lia.
Qed.

(** Odd positions hold the characters of [s], in order. *)
Lemma preprocess_lookup_odd (s : str) (j : nat) :
  preprocess s !! (2 * j + 1)%nat = s !! j.
Proof.
  rewrite preprocess_interleave.
  replace (2 * j + 1)%nat with (S (2 * j)) by lia. simpl.
  apply interleave_lookup_even.
Qed.

(** * Palindromes *)

Lemma length_sub {A : Type} (l : list A) (a len : nat) :
  (a + len ≤ length l)%nat → length (sub l a len) = len.
Proof. intros H. unfold sub. rewrite length_take, length_drop. lia. Qed.

Lemma lookup_sub {A : Type} (l : list A) (a len j : nat) :
  (j < len)%nat → sub l a len !! j = l !! (a + j)%nat.
Proof. intros H. unfold sub. by rewrite lookup_take_lt, lookup_drop. Qed.

Lemma palindrome_lookup {A : Type} (l : list A) :
  palindrome l ↔
  ∀ j, (j < length l)%nat → l !! j = l !! (length l - 1 - j)%nat.
Proof.
  unfold palindrome. split.
  - intros Hrev j Hj. rewrite <- Hrev at 1.
    rewrite reverse_lookup by done. f_equal. lia.
  - intros Hsym. apply list_eq. intros j.
    destruct (decide (j < length l)%nat) as [Hj|Hj].
    + rewrite reverse_lookup by done. rewrite (Hsym j Hj). f_equal. lia.
    + rewrite !lookup_ge_None_2; [done|lia|rewrite length_reverse; lia].
Qed.

Lemma palindrome_sub {A : Type} (l : list A) (a len : nat) :
  (a + len ≤ length l)%nat →
  palindrome (sub l a len) ↔
  ∀ j, (j < len)%nat → l !! (a + j)%nat = l !! (a + (len - 1 - j))%nat.
Proof.
  intros Hin. rewrite palindrome_lookup, length_sub by done. split.
  - intros H j Hj. specialize (H j Hj).
    by rewrite !lookup_sub in H by lia.
  - intros H j Hj. rewrite !lookup_sub by lia. by apply H.
Qed.

(** ** Radii and palindromic spans *)


(** ** Palindromes of [s] and radii of its transformed string *)

Section Transformed.
Variable s : str.
Local Abbreviation T := (preprocess s).

Lemma T_length : Z.of_nat (length T) = 2 * Z.of_nat (length s) + 1.
Proof. rewrite length_preprocess. lia. Qed.

Lemma T_even (k : Z) :
  0 ≤ k ≤ Z.of_nat (length s) → T !! Z.to_nat (2 * k) = Some sep.
Proof.
  intros Hk. replace (Z.to_nat (2 * k)) with (2 * Z.to_nat k)%nat by lia.
  apply preprocess_lookup_even. lia.
Qed.

Lemma T_odd (k : Z) :
  0 ≤ k → T !! Z.to_nat (2 * k + 1) = s !! Z.to_nat k.
Proof.
  intros Hk.
  replace (Z.to_nat (2 * k + 1)) with (2 * Z.to_nat k + 1)%nat by lia.
  apply preprocess_lookup_odd.
Qed.

(** The substring of [s] of length [len] at [a] is a palindrome exactly
    when [len] is a radius at the centre [2 * a + len]. *)
Lemma palindrome_radius (a len : nat) :
  (a + len ≤ length s)%nat →
  palindrome (sub s a len) ↔
  radius_ok T (2 * Z.of_nat a + Z.of_nat len) (Z.of_nat len).
Proof.
  intros Hin. rewrite palindrome_sub by done. split.
  - intros Hpal. split; [lia|]. split; [lia|]. split.
    { rewrite T_length. lia. }
    intros k Hk.
    destruct (Z.Even_or_Odd (Z.of_nat len - k)) as [[m Hm]|[m Hm]].
    + replace (2 * Z.of_nat a + Z.of_nat len - k)
        with (2 * (Z.of_nat a + m)) by lia.
      replace (2 * Z.of_nat a + Z.of_nat len + k)
        with (2 * (Z.of_nat a + Z.of_nat len - m)) by lia.
      rewrite !T_even by lia. done.
    + replace (2 * Z.of_nat a + Z.of_nat len - k)
        with (2 * (Z.of_nat a + m) + 1) by lia.
      replace (2 * Z.of_nat a + Z.of_nat len + k)
        with (2 * (Z.of_nat a + Z.of_nat len - m - 1) + 1) by lia.
      rewrite !T_odd by lia.
      specialize (Hpal (Z.to_nat m) ltac:(lia)).
      etrans; [|etrans; [exact Hpal|]]; f_equal; lia.
  - intros Hok j Hj.
    pose proof (radius_ok_reflect T _ _ (Z.of_nat len - 2 * Z.of_nat j - 1)
                  Hok ltac:(lia)) as Heq.
    replace (2 * Z.of_nat a + Z.of_nat len
             - (Z.of_nat len - 2 * Z.of_nat j - 1))
      with (2 * Z.of_nat (a + j) + 1) in Heq by lia.
    replace (2 * Z.of_nat a + Z.of_nat len
             + (Z.of_nat len - 2 * Z.of_nat j - 1))
      with (2 * Z.of_nat (a + (len - 1 - j)) + 1) in Heq by lia.
    rewrite !T_odd in Heq by lia.
    by rewrite !Nat2Z.id in Heq.
Qed.

(** A radius that stops on a character extends to the separators around
    it: the largest radius has the parity of its centre. *)
Lemma radius_max_parity (c r : Z) :
  radius_max T c r → Z.Even (c - r).
Proof.
  intros [Hok Hnot].
  destruct (Z.Even_or_Odd (c - r)) as [Hev|[m Hm]]; [done|].
  destruct Hnot. pose proof Hok as (Hr & Hlo & Hhi & _).
  rewrite T_length in Hhi.
  apply radius_ok_step; [done|lia|rewrite T_length; lia|].
  replace (c - (1 + r)) with (2 * m) by lia.
  replace (c + (1 + r)) with (2 * (m + r + 1)) by lia.
  rewrite !T_even by lia. done.
Qed.
End Transformed.

(** * The largest radius and the extraction *)

Lemma for_loop_rule_max {St : Type} (Inv : Z → St → Prop)
    (body : Z → St → outcome St) (fuel : nat) (lo hi : Z) (st : St) :
  (Z.to_nat (hi - lo) < fuel)%nat →
  Inv lo st →
  (∀ i st, lo ≤ i < hi → Inv i st →
     ∃ st', body i st = Ok st' ∧ Inv (i + 1) st') →
  ∃ st', for_loop fuel lo hi body st = Ok st' ∧ Inv (Z.max lo hi) st'.
Proof.
  intros Hfuel Hinv Hbody. destruct (Z_le_gt_dec lo hi) as [Hle|Hgt].
  - rewrite Z.max_r by lia. by apply for_loop_rule.
  - rewrite for_loop_skip by lia. exists st. by rewrite Z.max_l by lia.
Qed.


Lemma max_radius_spec (fuel : nat) (p : list Z) (n : Z) :
  Z.of_nat (length p) = n →
  (Z.to_nat n ≤ fuel)%nat → (0 < fuel)%nat →
  ∃ m, max_radius fuel p n = Ok m ∧ largest_interior p n m.
Proof.
  intros Hlen Hfuel Hpos. unfold max_radius.
  destruct (for_loop_rule_max
    (λ i m, 0 ≤ m ∧ (∀ j, 1 ≤ j < i → rad p j ≤ m) ∧
            (m = 0 ∨ ∃ j, 1 ≤ j < i ∧ rad p j = m))
    (max_body p) fuel 1 (n - 1) 0) as (m & Hrun & Hm & Hub & Hatt).
  - lia.
  - split; [lia|]. split; [intros j Hj; lia|by left].
  - intros i m Hi (Hm & Hub & Hatt). unfold max_body.
    rewrite index_rad by lia. simpl.
    destruct (Z.gtb_spec (rad p i) m) as [Hgt|Hle].
    + eexists. split; [done|]. split; [lia|]. split.
      * intros j Hj. destruct (decide (j = i)) as [->|Hji]; [lia|].
        specialize (Hub j ltac:(lia)). lia.
      * right. exists i. split; [lia|done].
    + eexists. split; [done|]. split; [lia|]. split.
      * intros j Hj. destruct (decide (j = i)) as [->|Hji]; [lia|].
        apply Hub. lia.
      * destruct Hatt as [->|(j & Hj & Hjm)]; [by left|].
        right. exists j. split; [lia|done].
  - exists m. split; [done|]. split; [done|]. split.
    + intros j Hj. apply Hub. lia.
    + destruct Hatt as [->|(j & Hj & Hjm)]; [by left|].
      right. exists j. split; [lia|done].
Qed.

Lemma substr_sub (s : str) (pos len : Z) :
  0 ≤ pos ≤ Z.of_nat (length s) → 0 ≤ len →
  substr s pos len = Ok (sub s (Z.to_nat pos) (Z.to_nat len)).
Proof.
  intros Hpos Hlen. unfold substr.
  destruct (Z.ltb_spec pos 0); [lia|].
  destruct (Z.ltb_spec (Z.of_nat (length s)) pos); [lia|]. simpl.
  destruct (Z.ltb_spec len 0); [lia|done].
Qed.

Lemma extract_spec (fuel : nat) (s : str) (p : list Z) (n maxLen : Z) :
  Z.of_nat (length p) = n →
  (Z.to_nat n ≤ fuel)%nat → (0 < fuel)%nat →
  0 ≤ maxLen →
  (∀ i, 1 ≤ i < n - 1 → rad p i = maxLen →
        0 ≤ (i - maxLen) ÷ 2 ≤ Z.of_nat (length s)) →
  extract fuel s p n maxLen = Ok (entry_at s maxLen <$> centres p n maxLen).
Proof.
  intros Hlen Hfuel Hpos Hmax Hstart. unfold extract.
  destruct (for_loop_rule_max
    (λ i es, es = entry_at s maxLen <$>
                    filter (λ i, rad p i = maxLen) (seqZ 1 (i - 1)))
    (extract_body s p maxLen) fuel 1 (n - 1) []) as (es & Hrun & ->).
  - lia.
  - done.
  - intros i es Hi ->. unfold extract_body.
    rewrite index_rad by lia. simpl.
    replace (i + 1 - 1) with ((i - 1) + 1) by lia.
    rewrite seqZ_app by lia. rewrite filter_app, fmap_app.
    replace (1 + (i - 1)) with i by lia.
    change (seqZ i 1) with [i]. rewrite filter_singleton; [|exact []].
    destruct (Z.eqb_spec (rad p i) maxLen) as [Heq|Hne].
    + rewrite substr_sub by (try apply Hstart; lia). simpl.
      eexists. split; [done|]. by rewrite decide_True by done.
    + eexists. split; [done|]. rewrite decide_False by done.
      by rewrite app_nil_r.
  - rewrite Hrun. unfold centres. do 3 f_equal.
    destruct (Z_le_gt_dec 1 (n - 1)).
    + f_equal. lia.
    + rewrite !seqZ_nil by lia. done.
Qed.

(** * The run of [manacher] *)

Section Run.
Variable s : str.
Local Abbreviation T := (preprocess s).
Local Abbreviation n := (Z.of_nat (length (preprocess s))).

(** The largest radius at [i] ends on separators: it leaves an even
    number of positions of [T] before it, twice the start in [s]. *)
Lemma radius_max_start (i r : Z) :
  radius_max T i r →
  ∃ a : nat,
    i = 2 * Z.of_nat a + r ∧ (i - r) ÷ 2 = Z.of_nat a ∧
    0 ≤ r ∧ Z.of_nat a + r ≤ Z.of_nat (length s).
Proof.
  intros Hmax. pose proof (radius_max_parity s i r Hmax) as [m Hm].
  destruct Hmax as [(Hr & Hlo & Hhi & _) _]. rewrite T_length in Hhi.
  exists (Z.to_nat m). split; [lia|]. split; [|lia].
  rewrite Hm, Z.mul_comm, Z.quot_mul by lia. lia.
Qed.

(** Every character of [s] is a palindrome: radius at least 1 at the
    odd centres. *)
Lemma radius_ok_char (j : Z) :
  0 ≤ j < Z.of_nat (length s) → radius_ok T (2 * j + 1) 1.
Proof.
  intros Hj. apply (radius_ok_step T (2 * j + 1) 0).
  - apply radius_ok_0. rewrite T_length. lia.
  - lia.
  - rewrite T_length. lia.
  - replace (2 * j + 1 - (1 + 0)) with (2 * j) by lia.
    replace (2 * j + 1 + (1 + 0)) with (2 * (j + 1)) by lia.
    rewrite !T_even by lia. done.
Qed.

Lemma manacher_run (fuel : nat) :
  int_fits s →
  (length T ≤ fuel)%nat →
  ∃ st maxLen, run_facts s fuel st maxLen.
Proof.
  intros Hfits Hfuel. pose proof (T_length s) as HT.
  destruct (radius_pass_spec T ltac:(unfold int_fits in Hfits; lia) fuel)
    as (st & Hpass & Hlen & Hmax); [lia|lia|].
  destruct (max_radius_spec fuel (p st) n) as (maxLen & Hrun & Hlargest);
    [done|lia|lia|].
  exists st, maxLen. split; [done|]. split; [by split|].
  split; [done|]. split; [done|]. split; [|done].
  apply extract_spec; [done|lia|lia|apply Hlargest|].
  intros i Hi Hrad.
  destruct (radius_max_start i maxLen) as (a & _ & -> & _ & Ha).
  { rewrite <- Hrad. apply Hmax. lia. }
  destruct Hlargest as (? & _). lia.
Qed.

Lemma run_facts_entries fuel st maxLen :
  run_facts s fuel st maxLen →
  manacher_entries fuel s
    = Ok (entry_at s maxLen <$> centres (p st) n maxLen).
Proof.
  intros (Hpass & _ & Hmax & _ & Hext & Hfits). unfold manacher_entries.
  rewrite int_length_small
    by (pose proof (T_length s); unfold int_fits in Hfits; lia).
  rewrite Hpass. simpl. rewrite Hmax. simpl. exact Hext.
Qed.

(** A non-empty input has a positive largest radius. *)
Lemma run_facts_positive fuel st maxLen :
  run_facts s fuel st maxLen → s ≠ [] → 1 ≤ maxLen.
Proof.
  intros (_ & [_ Hpost] & _ & (_ & Hub & _) & _) Hs.
  pose proof (T_length s) as HT.
  assert (0 < Z.of_nat (length s)) by (destruct s; [done|simpl; lia]).
  pose proof (radius_max_ge T 1 _ 1 (Hpost 1 ltac:(lia))
                (radius_ok_char 0 ltac:(lia))).
  specialize (Hub 1 ltac:(lia)). lia.
Qed.

(** The centres kept by the extraction, seen from [s]. *)
Lemma centres_spec fuel st maxLen (i : Z) :
  run_facts s fuel st maxLen →
  i ∈ centres (p st) n maxLen ↔
  1 ≤ i < n - 1 ∧ radius_max T i maxLen.
Proof.
  intros (_ & [_ Hpost] & _ & _ & _). unfold centres.
  rewrite list_elem_of_filter, elem_of_seqZ. split.
  - intros [Hrad Hi]. split; [lia|]. rewrite <- Hrad. apply Hpost. lia.
  - intros [Hi Hmax]. split; [|lia].
    apply (radius_max_unique T i); [apply Hpost; lia|done].
Qed.
End Run.

(** * Sorted lists of centres *)

Lemma StronglySorted_seqZ (m k : Z) : StronglySorted Z.lt (seqZ m k).
Proof.
  destruct (Z_le_gt_dec k 0) as [Hle|Hgt].
  { rewrite seqZ_nil by done. constructor. }
  rewrite <- (Z2Nat.id k) by lia. generalize (Z.to_nat k). clear.
  intros j. revert m. induction j as [|j IH]; intros m.
  - rewrite seqZ_nil by lia. constructor.
  - rewrite seqZ_cons by lia. constructor.
    + replace (Z.pred (Z.of_nat (S j))) with (Z.of_nat j) by lia. apply IH.
    + apply Forall_seqZ. lia.
Qed.

Lemma StronglySorted_filter {A : Type} (R : relation A) (P : A → Prop)
    `{!∀ x, Decision (P x)} (l : list A) :
  StronglySorted R l → StronglySorted R (filter P l).
Proof.
  induction 1 as [|x l Hl IH Hx]; [constructor|].
  rewrite filter_cons. destruct (decide (P x)); [|done].
  constructor; [done|].
  apply Forall_forall. intros y Hy%list_elem_of_filter.
  rewrite Forall_forall in Hx. apply Hx, Hy.
Qed.

Lemma StronglySorted_fmap_elem {A B : Type} (R1 : relation A)
    (R2 : relation B) (f : A → B) (l : list A) :
  (∀ x y, x ∈ l → y ∈ l → R1 x y → R2 (f x) (f y)) →
  StronglySorted R1 l → StronglySorted R2 (f <$> l).
Proof.
  intros Hf Hl. induction Hl as [|x l Hl IH Hx]; [constructor|].
  rewrite fmap_cons. constructor.
  - apply IH. intros y z Hy Hz. apply Hf; by right.
  - apply Forall_fmap, Forall_forall. intros y Hy.
    rewrite Forall_forall in Hx. apply Hf; [by left|by right|by apply Hx].
Qed.

Lemma StronglySorted_centres (p : list Z) (n maxLen : Z) :
  StronglySorted Z.lt (centres p n maxLen).
Proof. apply StronglySorted_filter, StronglySorted_seqZ. Qed.

(** * Inputs whose transformed string is too long for [int] *)

(** ** Runs that read a prefix of the string only *)

Lemma refines_refl {A : Type} (c : outcome A) : refines c c.
Proof. by intros a. Qed.

Lemma refines_bind {A B : Type} (c c' : outcome A) (k k' : A → outcome B) :
  refines c c' → (∀ a, refines (k a) (k' a)) → refines (c ≫= k) (c' ≫= k').
Proof.
  intros Hc Hk b. destruct c as [a|f]; simpl; [|done].
  rewrite (Hc a eq_refl). simpl. apply Hk.
Qed.

Lemma refines_for_loop {St : Type} (body body' : Z → St → outcome St)
    (fuel : nat) (lo hi : Z) (st : St) :
  (∀ i st, refines (body i st) (body' i st)) →
  refines (for_loop fuel lo hi body st) (for_loop fuel lo hi body' st).
Proof.
  intros Hbody. revert lo st.
  induction fuel as [|fuel IH]; intros lo st; [apply refines_refl|].
  simpl. destruct (lo <? hi); [|apply refines_refl].
  apply refines_bind; [apply Hbody|]. intros st1. apply IH.
Qed.

(** A character read in a prefix is the character of the string. *)
Lemma refines_index_take {A : Type} (v : list A) (m : nat) (k : Z) :
  refines (index (take m v) k) (index v k).
Proof.
  intros x. rewrite !index_Ok. intros [Hk Hx]. split; [done|].
  by apply lookup_take_Some in Hx as [Hx _].
Qed.

Lemma refines_expand (fuel : nat) (T : str) (m : nat) (n i : Z) (p : list Z) :
  refines (expand fuel (take m T) n i p) (expand fuel T n i p).
Proof.
  revert p. induction fuel as [|fuel IH]; intros p; [apply refines_refl|].
  simpl. apply refines_bind; [apply refines_refl|]. intros pi.
  destruct (_ && _); [|apply refines_refl].
  apply refines_bind; [apply refines_index_take|]. intros a.
  apply refines_bind; [apply refines_index_take|]. intros b.
  destruct (Ascii.eqb a b); [|apply refines_refl].
  apply refines_bind; [apply refines_refl|]. intros p'. apply IH.
Qed.

Lemma refines_pass_body (fuel : nat) (T : str) (m : nat) (n i : Z)
    (st : pass_state) :
  refines (pass_body fuel (take m T) n i st) (pass_body fuel T n i st).
Proof.
  unfold pass_body.
  apply refines_bind; [apply refines_refl|]. intros p1.
  apply refines_bind; [apply refines_expand|]. intros p2.
  apply refines_refl.
Qed.

(** ** The narrowed length *)

Lemma int_length_take (T : str) (m : nat) :
  int_length T = Z.of_nat m →
  (m ≤ length T)%nat ∧ Z.of_nat m ≤ INT_MAX ∧
  length (take m T) = m ∧ int_length (take m T) = Z.of_nat m.
Proof.
  intros Hm. pose proof (int_length_le T) as Hle.
  destruct (to_int_spec (Z.of_nat (length T))) as (j & _ & Hr).
  fold (int_length T) in Hr.
  assert (length (take m T) = m) as Hlen by (rewrite length_take; lia).
  split; [lia|]. split; [lia|]. split; [done|].
  unfold int_length. rewrite Hlen. apply to_int_small.
  unfold INT_MIN. lia.
Qed.

(** With a length that has wrapped around to [m], the pass is the pass
    on the first [m] characters. *)
Lemma radius_pass_narrowed (fuel : nat) (T : str) (m : nat) :
  int_length T = Z.of_nat m →
  refines (radius_pass fuel (take m T)) (radius_pass fuel T).
Proof.
  intros Hm. destruct (int_length_take T m Hm) as (_ & _ & _ & Hm').
  unfold radius_pass. rewrite Hm, Hm'.
  apply refines_bind; [apply refines_refl|]. intros p0.
  apply refines_for_loop. intros i st. apply refines_pass_body.
Qed.

(** The state before round [i] of such a pass. *)
Lemma pass_round_narrowed (fuel : nat) (T : str) (m : nat) (i : Z)
    (st : pass_state) :
  int_length T = Z.of_nat m →
  (m ≤ fuel)%nat →
  1 ≤ i < Z.of_nat m - 1 →
  for_loop fuel 1 i (pass_body fuel T (Z.of_nat m)) (pass_init (Z.of_nat m))
    = Ok st →
  pass_inv (take m T) i st.
Proof.
  intros Hm Hfuel Hi Hloop.
  destruct (int_length_take T m Hm) as (_ & Hint & Hlen & _).
  pose proof (pass_inv_init (take m T)) as Hinit.
  pose proof (pass_body_spec (take m T)) as Hbody.
  rewrite Hlen in Hinit, Hbody.
  destruct (for_loop_rule (pass_inv (take m T))
              (pass_body fuel (take m T) (Z.of_nat m)) fuel 1 i
              (pass_init (Z.of_nat m))) as (st1 & Hloop1 & Hinv).
  - lia.
  - lia.
  - apply Hinit. lia.
  - intros j stj Hj Hinv. apply Hbody; [done|lia|lia|done].
  - apply (refines_for_loop _ (pass_body fuel T (Z.of_nat m))) in Hloop1.
    + rewrite Hloop in Hloop1. by injection Hloop1 as ->.
    + intros j stj. apply refines_pass_body.
Qed.

Lemma radius_pass_length_error (fuel : nat) (T : str) :
  int_length T < 0 → radius_pass fuel T = Fail LengthError.
Proof. intros Hn. unfold radius_pass. by rewrite new_vector_neg. Qed.

Lemma manacher_fuel_length_error (fuel : nat) (s : str) :
  int_length (preprocess s) < 0 → manacher_fuel fuel s = Fail LengthError.
Proof.
  intros Hn. unfold manacher_fuel, manacher_entries.
  by rewrite radius_pass_length_error.
Qed.

(** ** The transformed string of a prefix *)

Lemma interleave_take (s : str) (k : nat) :
  interleave (take k s) = take (2 * k) (interleave s).
Proof.
  revert k. induction s as [|c s IH]; intros [|k]; try done.
  replace (2 * S k)%nat with (S (S (2 * k))) by lia. simpl. by rewrite IH.
Qed.

Lemma preprocess_take (s : str) (k : nat) :
  preprocess (take k s) = take (2 * k + 1) (preprocess s).
Proof.
  rewrite !preprocess_interleave, interleave_take.
  by replace (2 * k + 1)%nat with (S (2 * k)) by lia.
Qed.

Lemma sub_take {A : Type} (l : list A) (k a len : nat) :
  (a + len ≤ k)%nat → sub (take k l) a len = sub l a len.
Proof.
  intros Hin. apply list_eq. intros j.
  destruct (decide (j < len)%nat) as [Hj|Hj].
  - rewrite !lookup_sub by done. apply lookup_take_lt. lia.
  - unfold sub. rewrite !lookup_take_ge by lia. done.
Qed.

(** The narrowed length of a transformed string is negative or the
    length of the transformed string of a prefix of the input. *)
Lemma int_length_preprocess (s : str) :
  int_length (preprocess s) < 0 ∨
  ∃ k : nat,
    (k ≤ length s)%nat ∧
    int_length (preprocess s) = 2 * Z.of_nat k + 1 ∧
    (int_fits s → k = length s).
Proof.
  destruct (Z_lt_le_dec (int_length (preprocess s)) 0) as [Hneg|Hpos];
    [by left|right].
  unfold int_length in *. rewrite length_preprocess in *.
  replace (Z.of_nat (2 * length s + 1)) with (2 * Z.of_nat (length s) + 1)
    in * by lia.
  destruct (to_int_odd_prefix (Z.of_nat (length s)) ltac:(lia) Hpos)
    as (k & Hk & Hrange & _).
  exists (Z.to_nat k). split; [lia|]. split; [lia|].
  intros Hfits. unfold int_fits in Hfits.
  rewrite to_int_small in Hk by (unfold INT_MIN; lia). lia.
Qed.

Lemma int_length_neg_not_fits (s : str) :
  int_length (preprocess s) < 0 → ¬ int_fits s.
Proof.
  intros Hneg Hfits. unfold int_fits in Hfits.
  pose proof (T_length s) as HT.
  rewrite int_length_small in Hneg by lia. lia.
Qed.

Lemma int_fits_take (s : str) (k : nat) :
  (k ≤ length s)%nat →
  int_length (preprocess s) = 2 * Z.of_nat k + 1 →
  int_fits (take k s).
Proof.
  intros Hk Hn. unfold int_fits. rewrite length_take.
  destruct (to_int_spec (Z.of_nat (length (preprocess s)))) as (j & _ & Hr).
  fold (int_length (preprocess s)) in Hr. lia.
Qed.

(** ** The run on a long input *)

(** With a length narrowed to [2 * k + 1], [manacher] runs as on the
    first [k] characters of its input. *)
Lemma manacher_entries_narrowed (fuel : nat) (s : str) (k : nat) :
  (k ≤ length s)%nat →
  int_length (preprocess s) = 2 * Z.of_nat k + 1 →
  (2 * k + 1 ≤ fuel)%nat →
  ∃ st maxLen,
    run_facts (take k s) fuel st maxLen ∧
    int_length (preprocess s) = Z.of_nat (length (preprocess (take k s))) ∧
    radius_pass fuel (preprocess s) = Ok st ∧
    manacher_entries fuel s = manacher_entries fuel (take k s).
Proof.
  intros Hk Hn Hfuel.
  pose proof (int_fits_take s k Hk Hn) as Hfits.
  assert (length (take k s) = k) as Hlenk by (rewrite length_take; lia).
  assert (int_length (preprocess s)
          = Z.of_nat (length (preprocess (take k s)))) as Hn'.
  { rewrite Hn, length_preprocess, Hlenk. lia. }
  destruct (manacher_run (take k s) fuel Hfits) as (st & maxLen & Hrun).
  { rewrite length_preprocess, Hlenk. lia. }
  exists st, maxLen. split; [done|]. split; [done|].
  pose proof Hrun as (Hpass & [Hlen Hpost] & Hmax & (HmaxLen & _) & _).
  assert (radius_pass fuel (preprocess s) = Ok st) as Hpass'.
  { apply (radius_pass_narrowed fuel (preprocess s) (2 * k + 1)).
    - rewrite Hn. lia.
    - by rewrite <- preprocess_take. }
  split; [done|].
  rewrite (run_facts_entries (take k s) _ _ _ Hrun).
  unfold manacher_entries. rewrite Hpass'. simpl. rewrite Hn', Hmax. simpl.
  assert (∀ i, i ∈ centres (p st) (Z.of_nat (length (preprocess (take k s))))
                     maxLen →
            ∃ a : nat, (i - maxLen) ÷ 2 = Z.of_nat a ∧
                       Z.of_nat a + maxLen ≤ Z.of_nat k) as Hcentre.
  { intros i [Hi Himax]%(centres_spec (take k s) _ _ _ _ Hrun).
    destruct (radius_max_start (take k s) i maxLen Himax)
      as (a & _ & Hq & _ & Ha).
    exists a. split; [done|lia]. }
  rewrite extract_spec; [|done|lia|lia|done|].
  - f_equal. apply Forall_fmap_ext_1, Forall_forall. intros i Hi.
    destruct (Hcentre i Hi) as (a & Hq & Ha). unfold entry_at.
    rewrite Hq, Nat2Z.id. f_equal. symmetry. apply sub_take. lia.
  - intros i Hi Hrad.
    destruct (Hcentre i) as (a & -> & Ha); [|lia].
    unfold centres. apply list_elem_of_filter. split; [done|].
    apply elem_of_seqZ. lia.
Qed.

Lemma manacher_fuel_narrowed (fuel : nat) (s : str) (k : nat) :
  (k ≤ length s)%nat →
  int_length (preprocess s) = 2 * Z.of_nat k + 1 →
  (2 * k + 1 ≤ fuel)%nat →
  ∃ r, manacher_fuel fuel s = Ok r ∧ manacher (take k s) = Ok r.
Proof.
  intros Hk Hn Hfuel.
  assert (length (take k s) = k) as Hlenk by (rewrite length_take; lia).
  destruct (manacher_entries_narrowed fuel s k Hk Hn Hfuel)
    as (st & maxLen & Hrun & _ & _ & Heq).
  destruct (manacher_entries_narrowed (2 * k + 1) s k Hk Hn ltac:(lia))
    as (st0 & maxLen0 & Hrun0 & _ & _ & _).
  pose proof (run_facts_entries (take k s) _ _ _ Hrun0) as Hes.
  revert Hes.
  generalize (entry_at (take k s) maxLen0 <$>
              centres (p st0) (Z.of_nat (length (preprocess (take k s))))
                maxLen0).
  intros es Hes. exists (text <$> es). split.
  - unfold manacher_fuel. rewrite Heq.
    by rewrite (approx_Ok _ _ _
      (approx_manacher_entries (2 * k + 1) fuel (take k s) Hfuel) Hes).
  - unfold manacher, manacher_fuel. rewrite length_preprocess, Hlenk.
    by rewrite Hes.
Qed.


(** Either the constructor of [p] throws, or the run is the run on a
    prefix [take k s] whose transformed length is an [int]. *)
Lemma manacher_run_narrowed (s : str) :
  int_length (preprocess s) < 0 ∨
  ∃ (k : nat) st maxLen,
    (k ≤ length s)%nat ∧
    int_length (preprocess s) = 2 * Z.of_nat k + 1 ∧
    int_length (preprocess s) = Z.of_nat (length (preprocess (take k s))) ∧
    run_facts (take k s) (length (preprocess s)) st maxLen ∧
    radius_pass (length (preprocess s)) (preprocess s) = Ok st ∧
    manacher_entries (length (preprocess s)) s
      = manacher_entries (length (preprocess s)) (take k s).
Proof.
  destruct (int_length_preprocess s) as [Hneg|(k & Hk & Hn & _)];
    [by left|right].
  destruct (manacher_entries_narrowed (length (preprocess s)) s k Hk Hn)
    as (st & maxLen & Hrun & Hn' & Hpass & Heq);
    [rewrite length_preprocess; lia|].
  by exists k, st, maxLen.
Qed.

(** ** Inputs of [2^30], [2^31] and [2^31 + 1] characters *)







(** * The specification of [manacher] *)

Lemma manacher_run_default (s : str) :
  int_fits s →
  ∃ st maxLen, run_facts s (length (preprocess s)) st maxLen.
Proof. intros Hfits. by apply manacher_run. Qed.

Lemma run_facts_manacher (s : str) st maxLen :
  run_facts s (length (preprocess s)) st maxLen →
  manacher s
  = Ok ((λ a, sub s a (Z.to_nat maxLen)) <$>
        ((λ i, Z.to_nat ((i - maxLen) ÷ 2)) <$>
         centres (p st) (Z.of_nat (length (preprocess s))) maxLen)).
Proof.
  intros Hrun. unfold manacher, manacher_fuel.
  rewrite (run_facts_entries s _ _ _ Hrun). simpl.
  by rewrite <- !list_fmap_compose.
Qed.

(** A palindromic substring of length [len] at [a] is seen by the pass at
    the interior centre [2 * a + len]. *)
Lemma pal_substring_centre (s : str) st maxLen (a len : nat) :
  run_facts s (length (preprocess s)) st maxLen →
  pal_substring s a len →
  1 ≤ 2 * Z.of_nat a + Z.of_nat len < Z.of_nat (length (preprocess s)) - 1 ∧
  Z.of_nat len ≤ rad (p st) (2 * Z.of_nat a + Z.of_nat len) ∧
  rad (p st) (2 * Z.of_nat a + Z.of_nat len) ≤ maxLen.
Proof.
  intros (_ & [_ Hpost] & _ & (_ & Hub & _) & _) (Hlen & Hin & Hpal).
  pose proof (T_length s) as HT.
  assert (1 ≤ 2 * Z.of_nat a + Z.of_nat len
          < Z.of_nat (length (preprocess s)) - 1) as Hi by lia.
  split; [done|]. split; [|by apply Hub].
  apply (radius_max_ge (preprocess s) (2 * Z.of_nat a + Z.of_nat len)).
  - apply Hpost. lia.
  - by apply palindrome_radius.
Qed.

(** The entries of [manacher] and the positions it cuts at. *)
Lemma manacher_run_positions (s : str) :
  int_fits s →
  ∃ (L : nat) (starts : list nat) (es : list entry),
    manacher s = Ok ((λ a, sub s a L) <$> starts) ∧
    manacher_entries (length (preprocess s)) s = Ok es ∧
    start_index <$> es = Z.of_nat <$> starts ∧
    StronglySorted lt starts ∧
    Forall (λ x, palindrome x ∧ length x = L) ((λ a, sub s a L) <$> starts) ∧
    (∀ a, a ∈ starts ↔ pal_substring s a L) ∧
    (∀ a len, pal_substring s a len → (len ≤ L)%nat) ∧
    (starts = [] ↔ s = []).
Proof.
  intros Hfits.
  destruct (manacher_run_default s Hfits) as (st & maxLen & Hrun).
  pose proof (T_length s) as HT.
  pose proof Hrun as (_ & [_ Hpost] & _ & (HmaxLen & Hub & Hatt) & _).
  set (cs := centres (p st) (Z.of_nat (length (preprocess s))) maxLen).
  exists (Z.to_nat maxLen), ((λ i, Z.to_nat ((i - maxLen) ÷ 2)) <$> cs),
         (entry_at s maxLen <$> cs).
  split; [by apply run_facts_manacher|].
  split; [by apply run_facts_entries|].
  assert (∀ i, i ∈ cs →
            ∃ a : nat, i = 2 * Z.of_nat a + maxLen ∧
                       (i - maxLen) ÷ 2 = Z.of_nat a ∧
                       pal_substring s a (Z.to_nat maxLen)) as Hcentre.
  { intros i [Hi Hmax]%(centres_spec s _ _ _ _ Hrun).
    destruct (radius_max_start s i maxLen Hmax) as (a & Hia & Hq & _ & Ha).
    exists a. split; [done|]. split; [done|].
    assert (s ≠ []) as Hs by (intros ->; simpl in *; lia).
    pose proof (run_facts_positive s _ _ _ Hrun Hs).
    split; [lia|]. split; [lia|].
    apply palindrome_radius; [lia|].
    rewrite Z2Nat.id by lia. rewrite <- Hia. apply Hmax. }
  split; [|split; [|split; [|split; [|split]]]].
  - rewrite <- !list_fmap_compose. apply Forall_fmap_ext_1, Forall_forall.
    intros i Hi. destruct (Hcentre i Hi) as (a & _ & Hq & _). simpl. lia.
  - apply (StronglySorted_fmap_elem Z.lt); [|apply StronglySorted_centres].
    intros x y Hx Hy Hxy.
    destruct (Hcentre x Hx) as (a & -> & -> & _).
    destruct (Hcentre y Hy) as (b & -> & -> & _). lia.
  - rewrite <- list_fmap_compose. apply Forall_fmap, Forall_forall.
    intros i Hi. destruct (Hcentre i Hi) as (a & _ & Hq & _ & Hin & Hpal).
    simpl. rewrite Hq, Nat2Z.id. split; [done|by apply length_sub].
  - intros a. rewrite list_elem_of_fmap. split.
    + intros (i & -> & Hi). destruct (Hcentre i Hi) as (b & _ & -> & Hb).
      by rewrite Nat2Z.id.
    + intros Hpal.
      destruct (pal_substring_centre s _ _ _ _ Hrun Hpal) as (Hi & Hlo & Hhi).
      destruct Hpal as (Hlen & Hin & Hpal).
      rewrite Z2Nat.id in * by lia.
      exists (2 * Z.of_nat a + maxLen). split.
      * replace (2 * Z.of_nat a + maxLen - maxLen) with (Z.of_nat a * 2) by lia.
        rewrite Z.quot_mul by lia. lia.
      * apply (centres_spec s _ _ _ _ Hrun). split; [done|].
        replace maxLen with (rad (p st) (2 * Z.of_nat a + maxLen)) at 2 by lia.
        apply Hpost. lia.
  - intros a len Hpal.
    destruct (pal_substring_centre s _ _ _ _ Hrun Hpal) as (_ & Hlo & Hhi).
    lia.
  - split.
    + intros Hnil%fmap_nil_inv. destruct s as [|c s']; [done|]. exfalso.
      pose proof (run_facts_positive (c :: s') _ _ _ Hrun ltac:(done)).
      destruct Hatt as [->|(j & Hj & Hjm)]; [lia|].
      assert (j ∈ cs) as Hin.
      { apply list_elem_of_filter. split; [done|]. apply elem_of_seqZ. lia. }
      rewrite Hnil in Hin. by apply not_elem_of_nil in Hin.
    + intros ->. done.
Qed.







(** C3: no subscript of [manacher] leaves its container, whatever the
    input and whatever the budget of the loops; [n] is the [int] of line
    28.  A run never ends in [OutOfBounds].  When the guard of the
    [while] loop has passed its two bound tests for a radius
    [p[i] >= 0], both [i - (1 + p[i])] and [i + (1 + p[i])] are indices of
    the transformed string.  Before every round [i] of the pass with
    [R > i] the mirror [2 * C - i], computed in [int], is an index of
    [p].  Either [n] is negative, which takes an input whose
    transformed length is not an [int], and the constructor of [p]
    throws before any subscript is used; or the three loops return and
    every [substr (start_index, maxLen)] of the extraction has
    [0 <= start_index] and [start_index + maxLen <= length s]. *)
Theorem manacher_in_bounds (s : str) :
  (∀ fuel, manacher_fuel fuel s ≠ Fail OutOfBounds) ∧
  (∀ i pi,
     0 ≤ pi →
     (i - (1 + pi) >=? 0) && (i + (1 + pi) <? int_length (preprocess s))
       = true →
     ∃ a b, index (preprocess s) (i - (1 + pi)) = Ok a ∧
            index (preprocess s) (i + (1 + pi)) = Ok b) ∧
  (∀ i st,
     1 ≤ i < int_length (preprocess s) - 1 →
     for_loop (length (preprocess s)) 1 i
       (pass_body (length (preprocess s)) (preprocess s)
          (int_length (preprocess s)))
       (pass_init (int_length (preprocess s))) = Ok st →
     R st > i →
     Z.of_nat (length (p st)) = int_length (preprocess s) ∧
     0 ≤ int_sub (int_mul 2 (C st)) i < int_length (preprocess s)) ∧
  ((int_length (preprocess s) < 0 ∧ ¬ int_fits s ∧
    radius_pass (length (preprocess s)) (preprocess s) = Fail LengthError) ∨
   ∃ st maxLen es,
     radius_pass (length (preprocess s)) (preprocess s) = Ok st ∧
     max_radius (length (preprocess s)) (p st)
       (int_length (preprocess s)) = Ok maxLen ∧
     extract (length (preprocess s)) s (p st)
       (int_length (preprocess s)) maxLen = Ok es ∧
     Forall (λ e, 0 ≤ start_index e ∧
                  start_index e + maxLen ≤ Z.of_nat (length s)) es).
Proof.
  pose proof (T_length s) as HT.
  pose proof (int_length_le (preprocess s)) as Hle.
  split; [|split; [|split]].
  - intros fuel Hbad.
    destruct (int_length_preprocess s) as [Hneg|(k & Hk & Hn & _)].
    { by rewrite manacher_fuel_length_error in Hbad. }
    destruct (Nat.le_ge_cases fuel (2 * k + 1)) as [Hfuel|Hfuel].
    + destruct (manacher_fuel_narrowed (2 * k + 1) s k Hk Hn ltac:(lia))
        as (r & Hr & _).
      destruct (approx_manacher_fuel _ _ s Hfuel) as [Hout|Heq]; congruence.
    + destruct (manacher_fuel_narrowed fuel s k Hk Hn Hfuel) as (r & Hr & _).
      congruence.
  - intros i pi Hpi [Hlo%Z.geb_le Hhi%Z.ltb_lt]%andb_true_iff.
    destruct (index_in_range (preprocess s) (i - (1 + pi))) as [a Ha]; [lia|].
    destruct (index_in_range (preprocess s) (i + (1 + pi))) as [b Hb]; [lia|].
    by exists a, b.
  - intros i st0 Hi Hloop HR.
    destruct (int_length_preprocess s) as [Hneg|(k & Hk & Hn & _)]; [lia|].
    assert (int_length (preprocess s) = Z.of_nat (2 * k + 1)) as Hm
      by lia.
    destruct (int_length_take _ _ Hm) as (_ & Hint & Hlen_take & _).
    rewrite Hm in Hloop.
    apply pass_round_narrowed in Hloop; [|done|lia|lia].
    destruct Hloop as (Hlen & Hok & _ & _ & HC & HRC).
    rewrite Hlen_take in *.
    pose proof (Hok (C st0) ltac:(lia)) as (HpC & HClo & HChi & _).
    rewrite int_mirror_small by (unfold INT_MIN, INT_MAX in *; lia).
    lia.
  - destruct (manacher_run_narrowed s)
      as [Hneg|(k & st & maxLen & Hk & Hn & Hn' & Hrun & Hpass & Heq)].
    { left. split; [done|]. split; [by apply int_length_neg_not_fits|].
      by apply radius_pass_length_error. }
    right. pose proof Hrun as (_ & _ & Hmax & (HmaxLen & _) & _).
    assert (length (take k s) = k) as Hlenk by (rewrite length_take; lia).
    assert (∀ i, i ∈ centres (p st)
                       (Z.of_nat (length (preprocess (take k s)))) maxLen →
              0 ≤ (i - maxLen) ÷ 2 ∧
              (i - maxLen) ÷ 2 + maxLen ≤ Z.of_nat (length s)) as Hcentre.
    { intros i [Hi Himax]%(centres_spec (take k s) _ _ _ _ Hrun).
      destruct (radius_max_start (take k s) i maxLen Himax)
        as (a & _ & Hq & _ & Ha). lia. }
    exists st, maxLen. eexists. split; [done|].
    rewrite Hn'. split; [done|]. split.
    + destruct Hrun as (_ & [Hlen _] & _). apply extract_spec; [done|lia|lia|done|].
      intros i Hi Hrad. destruct (Hcentre i); [|lia].
      unfold centres. apply list_elem_of_filter. split; [done|].
      apply elem_of_seqZ. lia.
    + apply Forall_fmap, Forall_forall. intros i Hi. simpl.
      by apply Hcentre.
Qed.

(** C4, as stated, fails: no run of [manacher] on "google" returns a
    sequence with the element "oo". *)
Lemma manacher_google_without_oo :
  ¬ ∃ r, manacher (lit "google") = Ok r ∧ lit "oo" ∈ r.
Proof.
  intros (r & Hrun & Hin).
  assert (manacher (lit "google") = Ok [lit "goog"]) as Hgoog
    by (vm_compute; reflexivity).
  rewrite Hgoog in Hrun. injection Hrun as <-.
  apply list_elem_of_singleton in Hin. discriminate.
Qed.

(** C4, amended: on "google", [manacher] returns the one-element sequence
    ["goog"], the longest palindromic substring; "oo" is the middle of
    that element, not an element. *)
Theorem manacher_google_goog :
  manacher (lit "google") = Ok [lit "goog"] ∧
  sub (lit "goog") 1 2 = lit "oo".
Proof. split; vm_compute; reflexivity. Qed.

(** C5: on the empty string [manacher] returns the empty sequence. *)
Theorem manacher_empty : manacher [] = Ok [].
Proof. reflexivity. Qed.

(** C6: the [start_index] values of the entries of [manacher s], in the
    order the entries are returned, are strictly increasing, whatever
    the input.  Either the [int] [n] of line 28 is negative, which
    takes an input whose transformed length is not an [int], and
    [manacher] throws [std::length_error], returning nothing; or it
    returns the texts of its entries, every text occurs in [s] at the
    [start_index] of its entry, and these positions are strictly
    increasing. *)
Theorem manacher_starts_increasing (s : str) :
  (int_length (preprocess s) < 0 ∧ ¬ int_fits s ∧
   manacher s = Fail LengthError) ∨
  ∃ es,
    manacher_entries (length (preprocess s)) s = Ok es ∧
    manacher s = Ok (text <$> es) ∧
    Forall (λ e, 0 ≤ start_index e ∧
                 text e = sub s (Z.to_nat (start_index e)) (length (text e)))
      es ∧
    StronglySorted Z.lt (start_index <$> es).
Proof.
  destruct (manacher_run_narrowed s)
    as [Hneg|(k & st & maxLen & Hk & Hn & Hn' & Hrun & Hpass & Heq)].
  { left. split; [done|]. split; [by apply int_length_neg_not_fits|].
    by apply manacher_fuel_length_error. }
  right.
  assert (length (take k s) = k) as Hlenk by (rewrite length_take; lia).
  pose proof (run_facts_entries (take k s) _ _ _ Hrun) as Hes.
  rewrite <- Heq in Hes.
  eexists. split; [exact Hes|]. split.
  { unfold manacher, manacher_fuel. by rewrite Hes. }
  split.
  - apply Forall_fmap, Forall_forall.
    intros i [Hi Himax]%(centres_spec (take k s) _ _ _ _ Hrun).
    destruct (radius_max_start (take k s) i maxLen Himax)
      as (a & _ & Hq & Hr & Ha).
    simpl. rewrite Hq, Nat2Z.id. split; [lia|].
    rewrite length_sub by lia. by rewrite sub_take by lia.
  - rewrite <- list_fmap_compose.
    apply (StronglySorted_fmap_elem Z.lt); [|apply StronglySorted_centres].
    intros x y Hx Hy Hxy. simpl.
    apply (centres_spec (take k s) _ _ _ _ Hrun) in Hx as [_ Hx].
    apply (centres_spec (take k s) _ _ _ _ Hrun) in Hy as [_ Hy].
    destruct (radius_max_start (take k s) x maxLen Hx) as (a & Hxa & -> & _).
    destruct (radius_max_start (take k s) y maxLen Hy) as (b & Hyb & -> & _).
    lia.
Qed.

(** C7: at every interior centre [i], that is every [i] with
    [1 <= i < n - 1] for the [int] [n] of line 28, whose radius is
    [maxLen], [i] and [maxLen] have the same parity: [i - maxLen] is even
    and not negative, and the truncating division by 2 of line 61 loses
    nothing.  This holds whatever the input: either [n] is negative,
    which takes an input whose transformed length is not an [int], and
    the constructor of [p] throws, so that no [start_index] is computed;
    or the pass and the loop of line 53 return and every such centre has
    the property. *)
Theorem start_index_exact (s : str) :
  (int_length (preprocess s) < 0 ∧ ¬ int_fits s ∧
   radius_pass (length (preprocess s)) (preprocess s) = Fail LengthError) ∨
  ∃ st maxLen,
    radius_pass (length (preprocess s)) (preprocess s) = Ok st ∧
    max_radius (length (preprocess s)) (p st)
      (int_length (preprocess s)) = Ok maxLen ∧
    ∀ i, 1 ≤ i < int_length (preprocess s) - 1 →
         index (p st) i = Ok maxLen →
         Z.even i = Z.even maxLen ∧
         Z.Even (i - maxLen) ∧
         0 ≤ i - maxLen ∧
         2 * ((i - maxLen) ÷ 2) = i - maxLen.
Proof.
  destruct (manacher_run_narrowed s)
    as [Hneg|(k & st & maxLen & Hk & Hn & Hn' & Hrun & Hpass & Heq)].
  { left. split; [done|]. split; [by apply int_length_neg_not_fits|].
    by apply radius_pass_length_error. }
  right. pose proof Hrun as (_ & [Hlen Hpost] & Hmax & _).
  exists st, maxLen. split; [done|]. rewrite Hn'. split; [done|].
  intros i Hi Hread. rewrite index_rad in Hread by lia.
  injection Hread as Hrad.
  pose proof (Hpost i ltac:(lia)) as Himax. rewrite Hrad in Himax.
  destruct (radius_max_start (take k s) i maxLen Himax) as (a & Hia & Hq & _).
  split; [|split; [|split]].
  - rewrite Hia, Z.add_comm. apply Z.even_add_mul_2.
  - exists (Z.of_nat a). lia.
  - lia.
  - lia.
Qed.







(** * Further properties of the code *)

(** X1: the transformed string of [s] has [2 * length s + 1] characters,
    a separator at every even index and the characters of [s], in order,
    at the odd indices: [processed_s[2 * j + 1] = s[j]]. *)
Theorem preprocess_layout (s : str) :
  length (preprocess s) = (2 * length s + 1)%nat ∧
  (∀ j, 0 ≤ j ≤ Z.of_nat (length s) →
        index (preprocess s) (2 * j) = Ok sep) ∧
  (∀ j, 0 ≤ j < Z.of_nat (length s) →
        index (preprocess s) (2 * j + 1) = index s j).
Proof.
  split; [apply length_preprocess|]. split.
  - intros j Hj. apply index_Ok. split; [lia|]. by apply T_even.
  - intros j Hj. destruct (index_in_range s j Hj) as [x Hx]. rewrite Hx.
    apply index_Ok in Hx as [_ Hx]. apply index_Ok. split; [lia|].
    rewrite T_odd by lia. done.
Qed.

(** X2: when the length of the transformed string of [s] is an [int],
    after the radius pass every entry [p[i]] has the parity of its index
    [i], and it is the length of a palindrome of [s]: the [p[i]]
    characters of [s] from position [(i - p[i]) / 2] read the same in
    both directions. *)
Theorem radius_parity_and_substring (s : str) :
  int_fits s →
  ∃ st,
    radius_pass (length (preprocess s)) (preprocess s) = Ok st ∧
    ∀ i, 0 ≤ i < Z.of_nat (length (preprocess s)) →
      ∃ r, index (p st) i = Ok r ∧
           Z.even r = Z.even i ∧
           0 ≤ (i - r) ÷ 2 ∧
           (i - r) ÷ 2 + r ≤ Z.of_nat (length s) ∧
           palindrome (sub s (Z.to_nat ((i - r) ÷ 2)) (Z.to_nat r)).
Proof.
  intros Hfits.
  destruct (manacher_run_default s Hfits)
    as (st & maxLen & Hpass & [Hlen Hpost] & _).
  exists st. split; [done|]. intros i Hi. exists (rad (p st) i).
  split; [apply index_rad; lia|].
  pose proof (Hpost i Hi) as Hmax.
  destruct (radius_max_start s i _ Hmax) as (a & Hia & Hq & Hr & Ha).
  split; [|split; [lia|split; [lia|]]].
  - rewrite Hia at 2. rewrite Z.add_comm. symmetry. apply Z.even_add_mul_2.
  - rewrite Hq, Nat2Z.id. apply palindrome_radius; [lia|].
    rewrite Z2Nat.id by lia. rewrite <- Hia. apply Hmax.
Qed.

Lemma radius_parity_and_substring_witness :
  int_fits (lit "abab") ∧
  ∃ st,
    radius_pass (length (preprocess (lit "abab"))) (preprocess (lit "abab"))
      = Ok st ∧
    ∀ i, 0 ≤ i < Z.of_nat (length (preprocess (lit "abab"))) →
      ∃ r, index (p st) i = Ok r ∧
           Z.even r = Z.even i ∧
           0 ≤ (i - r) ÷ 2 ∧
           (i - r) ÷ 2 + r ≤ Z.of_nat (length (lit "abab")) ∧
           palindrome (sub (lit "abab") (Z.to_nat ((i - r) ÷ 2)) (Z.to_nat r)).
Proof.
  assert (int_fits (lit "abab")) as Hfits
    by (unfold int_fits, INT_MAX; simpl; lia).
  split; [exact Hfits|].
  exact (radius_parity_and_substring (lit "abab") Hfits).
Defined.

(** X3: when the length of the transformed string of [s] is an [int],
    the radius array answers every palindrome query on [s]: for
    [a + len <= length s], the [len] characters of [s] from position [a]
    are a palindrome exactly when [len <= p[2 * a + len]]. *)
Theorem radius_decides_palindromes (s : str) :
  int_fits s →
  ∃ st,
    radius_pass (length (preprocess s)) (preprocess s) = Ok st ∧
    ∀ a len : nat, (a + len ≤ length s)%nat →
      ∃ r, index (p st) (2 * Z.of_nat a + Z.of_nat len) = Ok r ∧
           (palindrome (sub s a len) ↔ Z.of_nat len ≤ r).
Proof.
  intros Hfits.
  destruct (manacher_run_default s Hfits)
    as (st & maxLen & Hpass & [Hlen Hpost] & _).
  pose proof (T_length s) as HT.
  exists st. split; [done|]. intros a len Hin.
  exists (rad (p st) (2 * Z.of_nat a + Z.of_nat len)).
  split; [apply index_rad; lia|].
  pose proof (Hpost (2 * Z.of_nat a + Z.of_nat len) ltac:(lia)) as Hmax.
  rewrite (palindrome_radius s a len Hin). split.
  - intros Hok. by apply (radius_max_ge _ _ _ _ Hmax).
  - intros Hle. apply (radius_ok_le _ _ _ _ (proj1 Hmax)). lia.
Qed.

Lemma radius_decides_palindromes_witness :
  int_fits (lit "abab") ∧
  ∃ st,
    radius_pass (length (preprocess (lit "abab"))) (preprocess (lit "abab"))
      = Ok st ∧
    ∀ a len : nat, (a + len ≤ length (lit "abab"))%nat →
      ∃ r, index (p st) (2 * Z.of_nat a + Z.of_nat len) = Ok r ∧
           (palindrome (sub (lit "abab") a len) ↔ Z.of_nat len ≤ r).
Proof.
  assert (int_fits (lit "abab")) as Hfits
    by (unfold int_fits, INT_MAX; simpl; lia).
  split; [exact Hfits|].
  exact (radius_decides_palindromes (lit "abab") Hfits).
Defined.

(** ** The reach of the pass and its cost *)

(** Inside the palindrome [[c - pc, c + pc]] a palindrome around [i] is
    one around the mirror of [i], on either side of [c]. *)
Lemma radius_ok_mirror (T : str) (c pc i r : Z) :
  radius_ok T c pc → radius_ok T i r → Z.abs (i - c) + r ≤ pc →
  radius_ok T (2 * c - i) r.
Proof.
  intros Hc Hi Hin.
  pose proof Hc as (Hpc & Hclo & Hchi & _).
  pose proof Hi as (Hr & Hilo & Hihi & Hisym).
  split; [lia|]. split; [lia|]. split; [lia|].
  intros k Hk.
  transitivity (T !! Z.to_nat (i + k)).
  - replace (2 * c - i - k) with (c - (i - c + k)) by lia.
    replace (i + k) with (c + (i - c + k)) by lia.
    apply (radius_ok_reflect T c pc); [done|lia].
  - transitivity (T !! Z.to_nat (i - k)).
    + symmetry. apply Hisym. lia.
    + replace (i - k) with (c + (i - c - k)) by lia.
      replace (2 * c - i + k) with (c - (i - c - k)) by lia.
      symmetry. apply (radius_ok_reflect T c pc); [done|lia].
Qed.

(** A mirror radius that ends strictly inside the palindrome around [c]
    is final at [i]: the first test of the [while] loop fails. *)
Lemma mirror_stop (T : str) (c pc i pm : Z) :
  radius_ok T c pc → c < i < c + pc →
  radius_max T (2 * c - i) pm → pm < c + pc - i →
  ¬ radius_ok T i (pm + 1).
Proof.
  intros Hc Hi [Hm Hnot] Hlt Hbad. apply Hnot.
  apply (radius_ok_mirror T c pc i); [done|done|].
  destruct Hm as (? & _). lia.
Qed.

(** The counter of [expand_tests] is a ghost: the array is the one
    [expand] returns, and the guard was evaluated once per increment of
    [p[i]] and once more. *)
Lemma expand_tests_count (fuel : nat) (T : str) (n i : Z) (p p' : list Z)
    (k : nat) :
  0 ≤ i < Z.of_nat (length p) →
  expand fuel T n i p = Ok p' →
  rad p i ≤ rad p' i ∧
  expand_tests fuel T n i p k
  = Ok (p', (k + 1 + Z.to_nat (rad p' i - rad p i))%nat).
Proof.
  revert p k. induction fuel as [|fuel IH]; intros p k Hi Hrun; [done|].
  simpl in *. rewrite index_rad in * by done. simpl in *.
  assert (Ok (p, S k) = Ok (p, (k + 1 + Z.to_nat (rad p i - rad p i))%nat)
            :> outcome (list Z * nat)) as Hstop.
  { do 2 f_equal. lia. }
  destruct (_ && _).
  2:{ injection Hrun as <-. split; [lia|done]. }
  destruct (index T (i - (1 + rad p i))) as [a|f]; [|done].
  destruct (index T (i + (1 + rad p i))) as [b|f]; [|done].
  simpl in *. destruct (Ascii.eqb a b).
  2:{ injection Hrun as <-. split; [lia|done]. }
  rewrite store_in_range in * by done. simpl in *.
  destruct (IH (<[Z.to_nat i := rad p i + 1]> p) (S k)) as [Hle ->];
    [by rewrite length_insert|done|].
  rewrite rad_insert_eq in * by done.
  split; [lia|]. do 2 f_equal. lia.
Qed.

(** Two loops in step: the instrumented body and the body. *)
Lemma for_loop_rule_ghost {St K : Type} (Inv : Z → St * K → Prop)
    (body : Z → St → outcome St) (body_g : Z → St * K → outcome (St * K))
    (fuel : nat) (lo hi : Z) (st : St) (k : K) :
  lo ≤ hi →
  (Z.to_nat (hi - lo) < fuel)%nat →
  Inv lo (st, k) →
  (∀ i st k, lo ≤ i < hi → Inv i (st, k) →
     ∃ st' k', body_g i (st, k) = Ok (st', k') ∧ body i st = Ok st' ∧
               Inv (i + 1) (st', k')) →
  ∃ st' k', for_loop fuel lo hi body_g (st, k) = Ok (st', k') ∧
            for_loop fuel lo hi body st = Ok st' ∧
            Inv hi (st', k').
Proof.
  intros Hle Hfuel Hinv Hbody. revert lo st k Hle Hfuel Hinv Hbody.
  induction fuel as [|fuel IH]; intros lo st k Hle Hfuel Hinv Hbody; [lia|].
  simpl. destruct (Z.ltb_spec lo hi) as [Hlt|Hge].
  - destruct (Hbody lo st k) as (st1 & k1 & -> & -> & Hinv1); [lia|done|].
    simpl. apply IH; [lia|lia|done|].
    intros i st2 k2 Hi. apply Hbody. lia.
  - exists st, k. split; [done|]. split; [done|].
    by replace hi with lo by lia.
Qed.

Section Reach.
Variable T : str.
Local Abbreviation n := (Z.of_nat (length T)).

(** The length of [T] is an [int]. *)
Hypothesis Hint : n ≤ INT_MAX.

Lemma reach_inv_init : 1 ≤ n → reach_inv T 1 (pass_init n, O).
Proof.
  intros Hn. split; [by apply pass_inv_init|]. simpl.
  split; [|split; [intros j Hj; lia|lia]].
  intros j Hj. rewrite rad_replicate. lia.
Qed.

(** One round of the pass keeps the invariant, with or without the
    counter. *)
Lemma pass_body_tests_spec (fuel : nat) (i : Z) (st : pass_state) (k : nat) :
  1 ≤ i < n - 1 →
  (Z.to_nat n ≤ fuel)%nat →
  reach_inv T i (st, k) →
  ∃ st' k', pass_body_tests fuel T n i (st, k) = Ok (st', k') ∧
            pass_body fuel T n i st = Ok st' ∧
            reach_inv T (i + 1) (st', k').
Proof.
  intros Hi Hfuel (Hinv & Hreach & Hfirst & Hcount). simpl in *.
  destruct (pass_body_spec T Hint fuel i st Hi Hfuel Hinv)
    as (st' & Hbody & Hinv').
  pose proof Hinv as (Hlen & Hok & Hmax & Hzero & HC & HR).
  pose proof (Hok (C st) ltac:(lia)) as (HpC0 & HClo0 & HChi0 & _).
  (* the seed, and how far a final radius can be from it *)
  assert (∃ p1,
    (if R st >? i
     then pm ← index (p st) (2 * C st - i);
          store (p st) i (Z.min (R st - i) pm)
     else Ok (p st)) = Ok p1 ∧
    Z.of_nat (length p1) = n ∧
    (∀ j, 0 ≤ j → j ≠ i → rad p1 j = rad (p st) j) ∧
    radius_ok T i (rad p1 i) ∧
    (∀ r, radius_max T i r → R st + (r - rad p1 i) ≤ Z.max (R st) (i + r)))
    as (p1 & Hseed & Hlen1 & Hsame1 & Hok1 & Hgrow).
  { destruct (Z.gtb_spec (R st) i) as [Hgt|Hle].
    - pose proof (Hok (C st) ltac:(lia)) as HokC.
      pose proof HokC as (HpC & HClo & HChi & _).
      rewrite index_rad by lia. simpl.
      rewrite store_in_range by lia.
      eexists. split; [done|]. rewrite length_insert.
      split; [done|]. split; [|split].
      + intros j Hj Hji. apply rad_insert_ne; lia.
      + rewrite rad_insert_eq by lia. rewrite HR.
        apply mirror_seed; [done|lia|apply Hok; lia].
      + intros r Hr. rewrite rad_insert_eq by lia.
        destruct (Z_lt_le_dec (rad (p st) (2 * C st - i)) (R st - i))
          as [Hin|Hout]; [|lia].
        rewrite Z.min_r by lia.
        assert (radius_max T (2 * C st - i) (rad (p st) (2 * C st - i)))
          as Hm.
        { split; [apply Hok; lia|apply Hmax; lia]. }
        assert (radius_max T i (rad (p st) (2 * C st - i))) as Hi'.
        { split.
          - replace (rad (p st) (2 * C st - i))
              with (Z.min (C st + rad (p st) (C st) - i)
                          (rad (p st) (2 * C st - i))) by lia.
            apply mirror_seed; [done|lia|apply Hok; lia].
          - apply (mirror_stop T (C st) (rad (p st) (C st))); [done|lia|done|lia]. }
        rewrite (radius_max_unique T i _ _ Hr Hi'). lia.
    - exists (p st). split; [done|]. split; [done|]. split; [done|].
      rewrite Hzero by lia. split; [apply radius_ok_0; lia|].
      intros r (Hr & _). destruct Hr as (? & _). lia. }
  destruct (expand_spec T fuel i p1) as (p2 & Hexp & Hlen2 & Hsame2 & _ & Hmax2);
    [done|lia|done| |].
  { destruct Hok1 as (? & _). lia. }
  destruct (expand_tests_count fuel T n i p1 p2 k) as [Hle Hexp_t]; [lia|done|].
  assert (∀ j, 0 ≤ j → j ≠ i → rad p2 j = rad (p st) j) as Hsame.
  { intros j Hj Hji. rewrite Hsame2, Hsame1 by done. done. }
  specialize (Hgrow _ Hmax2).
  pose proof Hmax2 as [(Hr2 & _ & Hhi2 & _) _].
  pose proof Hbody as Hbody0.
  unfold pass_body in Hbody. unfold pass_body_tests. simpl.
  rewrite int_mirror_small in Hbody |- *
    by (unfold INT_MIN, INT_MAX in *; lia).
  rewrite (int_sub_small (R st) i) in Hbody |- *
    by (unfold INT_MIN, INT_MAX in *; lia).
  rewrite Hseed in *. simpl in *. rewrite Hexp in Hbody. rewrite Hexp_t.
  simpl in *. rewrite index_rad in * by lia. simpl in *.
  rewrite !int_add_small in Hbody |- *
    by (unfold INT_MIN, INT_MAX in *; lia).
  destruct (Z.gtb_spec (i + rad p2 i) (R st)) as [Hgt|Hngt];
    injection Hbody as <-.
  - eexists _, _. split; [done|]. split; [exact Hbody0|].
    split; [done|]. simpl. split; [|split; [|lia]].
    + intros j Hj. destruct (decide (j = i)) as [->|Hji]; [lia|].
      rewrite Hsame by lia. specialize (Hreach j ltac:(lia)). lia.
    + intros j Hj. rewrite Hsame by lia. specialize (Hreach j ltac:(lia)). lia.
  - eexists _, _. split; [done|]. split; [exact Hbody0|].
    split; [done|]. simpl. split; [|split; [|lia]].
    + intros j Hj. destruct (decide (j = i)) as [->|Hji]; [lia|].
      rewrite Hsame by lia. apply Hreach. lia.
    + intros j Hj. rewrite Hsame by lia. by apply Hfirst.
Qed.

(** The pass with its counter, the pass, and what they leave. *)
Lemma radius_pass_tests_spec (fuel : nat) :
  1 ≤ n →
  (Z.to_nat n ≤ fuel)%nat →
  ∃ st k, radius_pass_tests fuel T = Ok (st, k) ∧
          radius_pass fuel T = Ok st ∧
          reach_inv T (Z.max 1 (n - 1)) (st, k).
Proof.
  intros Hn Hfuel. unfold radius_pass_tests, radius_pass.
  rewrite int_length_small, new_vector_nonneg by lia. simpl.
  destruct (Z_le_gt_dec 1 (n - 1)) as [Hle|Hgt].
  - rewrite Z.max_r by lia.
    apply (for_loop_rule_ghost (reach_inv T)); [lia|lia|by apply reach_inv_init|].
    intros i st k Hi Hinv. by apply pass_body_tests_spec.
  - rewrite !for_loop_skip by lia. eexists _, _.
    split; [done|]. split; [done|]. rewrite Z.max_l by lia.
    by apply reach_inv_init.
Qed.
End Reach.

(** X4: what the pass leaves in [C] and [R] when the length of the
    transformed string of [s] is an [int].  [R] is the last index of the
    transformed string and [R = C + p[C]]; no centre reaches beyond [R],
    and no centre before [C] reaches it.  Read on [s]: its last [p[C]]
    characters are its longest palindromic suffix. *)
Theorem pass_reach (s : str) :
  int_fits s →
  ∃ st pC,
    radius_pass (length (preprocess s)) (preprocess s) = Ok st ∧
    index (p st) (C st) = Ok pC ∧
    R st = C st + pC ∧
    R st = 2 * Z.of_nat (length s) ∧
    (∀ j r, index (p st) j = Ok r → j + r ≤ R st) ∧
    (∀ j r, j < C st → index (p st) j = Ok r → j + r < R st) ∧
    0 ≤ pC ≤ Z.of_nat (length s) ∧
    palindrome (sub s (length s - Z.to_nat pC) (Z.to_nat pC)) ∧
    (∀ len, (len ≤ length s)%nat →
            palindrome (sub s (length s - len) len) → Z.of_nat len ≤ pC).
Proof.
  intros Hfits. pose proof (T_length s) as HT.
  destruct (radius_pass_tests_spec (preprocess s)
              ltac:(unfold int_fits in Hfits; lia) (length (preprocess s)))
    as (st & k & _ & Hpass & Hinv & Hreach & Hfirst & _); [lia|lia|].
  destruct (manacher_run_default s Hfits)
    as (st0 & maxLen & Hpass0 & [_ Hpost] & _).
  rewrite Hpass in Hpass0. injection Hpass0 as <-. simpl in *.
  destruct Hinv as (Hlen & Hok & _ & Hzero & HC & HR).
  pose proof (Hok (C st) ltac:(lia)) as (HpC & HClo & HChi & _).
  (* R is the last index *)
  assert (R st = 2 * Z.of_nat (length s)) as HRlast.
  { destruct (decide (length s = O)) as [Hs|Hs]; [lia|].
    pose proof (radius_max_ge _ _ _ 1
      (Hpost (2 * (Z.of_nat (length s) - 1) + 1) ltac:(lia))
      (radius_ok_char s (Z.of_nat (length s) - 1) ltac:(lia))).
    specialize (Hreach (2 * (Z.of_nat (length s) - 1) + 1) ltac:(lia)). lia. }
  destruct (radius_max_start s (C st) _ (Hpost (C st) ltac:(lia)))
    as (a & HCa & _ & _ & Ha).
  exists st, (rad (p st) (C st)).
  split; [done|]. split; [apply index_rad; lia|]. split; [done|].
  split; [done|]. split; [|split; [|split; [lia|split]]].
  - intros j r Hread. pose proof Hread as [Hj Hlook]%index_Ok.
    apply lookup_lt_Some in Hlook.
    rewrite index_rad in Hread by lia. injection Hread as <-.
    destruct (decide (j < Z.max 1 (Z.of_nat (length (preprocess s)) - 1)))
      as [Hlt|Hge]; [by apply Hreach; lia|].
    rewrite Hzero by lia. lia.
  - intros j r Hj Hread. pose proof Hread as [Hj0 Hlook]%index_Ok.
    apply lookup_lt_Some in Hlook.
    rewrite index_rad in Hread by lia. injection Hread as <-.
    apply Hfirst. lia.
  - replace (length s - Z.to_nat (rad (p st) (C st)))%nat with a by lia.
    apply palindrome_radius; [lia|].
    rewrite Z2Nat.id by lia. rewrite <- HCa. apply Hpost. lia.
  - intros len Hlen_s Hpal.
    destruct (Z_le_gt_dec (Z.of_nat len) (rad (p st) (C st))) as [|Hgt];
      [done|exfalso].
    apply palindrome_radius in Hpal; [|lia].
    pose proof (radius_max_ge _ _ _ _
      (Hpost (2 * Z.of_nat (length s - len) + Z.of_nat len) ltac:(lia)) Hpal).
    specialize (Hfirst (2 * Z.of_nat (length s - len) + Z.of_nat len)
                  ltac:(lia)).
    lia.
Qed.

Lemma pass_reach_witness :
  int_fits (lit "abab") ∧
  ∃ st pC,
    radius_pass (length (preprocess (lit "abab"))) (preprocess (lit "abab"))
      = Ok st ∧
    index (p st) (C st) = Ok pC ∧
    R st = C st + pC ∧
    R st = 2 * Z.of_nat (length (lit "abab")) ∧
    (∀ j r, index (p st) j = Ok r → j + r ≤ R st) ∧
    (∀ j r, j < C st → index (p st) j = Ok r → j + r < R st) ∧
    0 ≤ pC ≤ Z.of_nat (length (lit "abab")) ∧
    palindrome (sub (lit "abab") (length (lit "abab") - Z.to_nat pC)
                  (Z.to_nat pC)) ∧
    (∀ len, (len ≤ length (lit "abab"))%nat →
            palindrome (sub (lit "abab") (length (lit "abab") - len) len) →
            Z.of_nat len ≤ pC).
Proof.
  assert (int_fits (lit "abab")) as Hfits
    by (unfold int_fits, INT_MAX; simpl; lia).
  split; [exact Hfits|].
  exact (pass_reach (lit "abab") Hfits).
Defined.

(** X5: the radius pass is linear.  When the length of the transformed
    string of [s] is an [int], over the whole pass the guard of the
    [while] loop of line 41 is evaluated at most [4 * length s] times,
    the failing evaluation of every round included; the counter is a
    ghost, the pass with it returns the state of the pass. *)
Theorem pass_linear_cost (s : str) :
  int_fits s →
  ∃ st tests,
    radius_pass_tests (length (preprocess s)) (preprocess s)
      = Ok (st, tests) ∧
    radius_pass (length (preprocess s)) (preprocess s) = Ok st ∧
    (tests ≤ 4 * length s)%nat.
Proof.
  intros Hfits. pose proof (T_length s) as HT.
  destruct (radius_pass_tests_spec (preprocess s)
              ltac:(unfold int_fits in Hfits; lia) (length (preprocess s)))
    as (st & k & Hpass_t & Hpass & Hinv & _ & _ & Hcount); [lia|lia|].
  exists st, k. split; [done|]. split; [done|]. simpl in *.
  destruct Hinv as (_ & Hok & _ & _ & HC & HR).
  pose proof (Hok (C st) ltac:(lia)) as (HpC & HClo & HChi & _). lia.
Qed.

Lemma pass_linear_cost_witness :
  int_fits (lit "abab") ∧
  ∃ st tests,
    radius_pass_tests (length (preprocess (lit "abab")))
      (preprocess (lit "abab")) = Ok (st, tests) ∧
    radius_pass (length (preprocess (lit "abab"))) (preprocess (lit "abab"))
      = Ok st ∧
    (tests ≤ 4 * length (lit "abab"))%nat.
Proof.
  assert (int_fits (lit "abab")) as Hfits
    by (unfold int_fits, INT_MAX; simpl; lia).
  split; [exact Hfits|].
  exact (pass_linear_cost (lit "abab") Hfits).
Defined.

(** ** The result is determined by the palindromes of the input *)

(** The positions [manacher] cuts at. *)
Lemma manacher_positions (s : str) :
  int_fits s →
  ∃ (L : nat) (starts : list nat),
    manacher s = Ok ((λ a, sub s a L) <$> starts) ∧
    StronglySorted lt starts ∧
    (∀ a, a ∈ starts ↔ pal_substring s a L) ∧
    (∀ a len, pal_substring s a len → (len ≤ L)%nat) ∧
    (s ≠ [] → starts ≠ []).
Proof.
  intros Hfits.
  destruct (manacher_run_positions s Hfits)
    as (L & starts & es & Hrun & _ & _ & Hsorted & _ & Hmem & Hmax & Hnil).
  exists L, starts. split; [done|]. split; [done|]. split; [done|].
  split; [done|]. intros Hs Hstarts. by apply Hs, Hnil.
Qed.

Lemma StronglySorted_lt_NoDup (l : list nat) : StronglySorted lt l → NoDup l.
Proof.
  induction 1 as [|x l Hl IH Hx]; [constructor|].
  constructor; [|done]. intros Hin.
  rewrite Forall_forall in Hx. specialize (Hx x Hin). lia.
Qed.

Lemma StronglySorted_lt_ext (l1 l2 : list nat) :
  StronglySorted lt l1 → StronglySorted lt l2 →
  (∀ x, x ∈ l1 ↔ x ∈ l2) → l1 = l2.
Proof.
  intros H1 H2 Hmem.
  apply (StronglySorted_unique_strong lt); [intros; lia|done|done|].
  apply NoDup_Permutation; auto using StronglySorted_lt_NoDup.
Qed.

(** Positions and a length that meet the specification are the ones
    [manacher] uses. *)
Lemma manacher_from_spec (s : str) (L : nat) (starts : list nat) :
  int_fits s →
  StronglySorted lt starts →
  starts ≠ [] →
  (∀ a, a ∈ starts ↔ pal_substring s a L) →
  (∀ a len, pal_substring s a len → (len ≤ L)%nat) →
  manacher s = Ok ((λ a, sub s a L) <$> starts).
Proof.
  intros Hfits Hsorted Hne Hmem Hmax.
  destruct (manacher_positions s Hfits)
    as (L' & starts' & -> & Hsorted' & Hmem' & Hmax' & Hne').
  destruct starts as [|a0 starts0] eqn:Hstarts; [done|]. rewrite <- Hstarts in *.
  assert (pal_substring s a0 L) as Ha0.
  { apply Hmem. rewrite Hstarts. by left. }
  assert (s ≠ []) as Hs.
  { intros ->. destruct Ha0 as (? & ? & _). simpl in *. lia. }
  destruct starts' as [|a1 starts1] eqn:Hstarts'; [by destruct Hne'|].
  rewrite <- Hstarts' in *.
  assert (pal_substring s a1 L') as Ha1.
  { apply Hmem'. rewrite Hstarts'. by left. }
  assert (L' = L) as ->.
  { pose proof (Hmax _ _ Ha1). pose proof (Hmax' _ _ Ha0). lia. }
  do 2 f_equal. apply StronglySorted_lt_ext; [done|done|].
  intros x. by rewrite Hmem, Hmem'.
Qed.

Lemma sub_all {A : Type} (l : list A) : sub l 0 (length l) = l.
Proof. unfold sub. rewrite drop_0. by apply take_ge. Qed.

Lemma sub_reverse {A : Type} (l : list A) (a len : nat) :
  (a + len ≤ length l)%nat →
  sub (reverse l) a len = reverse (sub l (length l - len - a) len).
Proof.
  intros Hin. apply list_eq. intros j.
  destruct (decide (j < len)%nat) as [Hj|Hj].
  - assert (length (sub l (length l - len - a) len) = len) as Hlen
      by (apply length_sub; lia).
    rewrite lookup_sub by done.
    rewrite (reverse_lookup l) by lia.
    rewrite reverse_lookup by lia.
    rewrite Hlen, lookup_sub by lia. f_equal. lia.
  - rewrite !lookup_ge_None_2; [done| |].
    + rewrite length_reverse, length_sub by lia. lia.
    + rewrite length_sub by (rewrite length_reverse; lia). lia.
Qed.

Lemma palindrome_reverse {A : Type} (l : list A) :
  palindrome (reverse l) ↔ palindrome l.
Proof.
  unfold palindrome. rewrite reverse_involutive. split; intros H; by symmetry.
Qed.

Lemma pal_substring_reverse (s : str) (a len : nat) :
  pal_substring (reverse s) a len →
  pal_substring s (length s - len - a) len.
Proof.
  intros (Hlen & Hin & Hpal). rewrite length_reverse in Hin.
  split; [done|]. split; [lia|].
  rewrite sub_reverse in Hpal by done. by apply palindrome_reverse.
Qed.

Lemma StronglySorted_reverse {A : Type} (R : relation A) (l : list A) :
  StronglySorted R l → StronglySorted (flip R) (reverse l).
Proof.
  induction 1 as [|x l Hl IH Hx]; [constructor|].
  rewrite reverse_cons. apply StronglySorted_app_2.
  - intros x1 x2 Hx1 ->%list_elem_of_singleton.
    rewrite elem_of_reverse in Hx1.
    rewrite Forall_forall in Hx. unfold flip. by apply Hx.
  - exact IH.
  - repeat constructor.
Qed.

(** X6: on a non-empty palindrome whose transformed length is an [int],
    [manacher] returns the input itself, once. *)
Theorem manacher_of_palindrome (s : str) :
  s ≠ [] → palindrome s → int_fits s → manacher s = Ok [s].
Proof.
  intros Hs Hpal Hfits.
  assert (0 < length s)%nat as Hlen by (destruct s; [done|simpl; lia]).
  rewrite (manacher_from_spec s (length s) [0%nat]).
  - simpl. by rewrite sub_all.
  - done.
  - repeat constructor.
  - done.
  - intros a. rewrite list_elem_of_singleton. split.
    + intros ->. split; [lia|]. split; [lia|]. by rewrite sub_all.
    + intros (_ & Hin & _). lia.
  - intros a len (_ & Hin & _). lia.
Qed.

Lemma manacher_of_palindrome_witness :
  lit "racecar" ≠ [] ∧ palindrome (lit "racecar") ∧
  int_fits (lit "racecar") ∧
  manacher (lit "racecar") = Ok [lit "racecar"].
Proof.
  assert (lit "racecar" ≠ []) as Hne by (vm_compute; discriminate).
  assert (palindrome (lit "racecar")) as Hpal by (vm_compute; reflexivity).
  assert (int_fits (lit "racecar")) as Hfits
    by (unfold int_fits, INT_MAX; simpl; lia).
  split; [exact Hne|]. split; [exact Hpal|]. split; [exact Hfits|].
  exact (manacher_of_palindrome (lit "racecar") Hne Hpal Hfits).
Defined.

(** X7: when the length of the transformed string of [s] is an [int],
    reversing the input reverses the result: the longest palindromes of
    the reversed string are those of the string, in the opposite
    order. *)
Theorem manacher_reverse (s : str) :
  int_fits s →
  ∃ r, manacher s = Ok r ∧ manacher (reverse s) = Ok (reverse r).
Proof.
  intros Hfits.
  destruct (decide (s = [])) as [->|Hs].
  { exists []. split; reflexivity. }
  destruct (manacher_positions s Hfits)
    as (L & starts & Hrun & Hsorted & Hmem & Hmax & Hne).
  specialize (Hne Hs).
  eexists. split; [exact Hrun|].
  set (f := λ a : nat, (length s - L - a)%nat).
  assert (∀ a, a ∈ starts → sub (reverse s) (f a) L = sub s a L) as Htext.
  { intros a (HL & Hin & Hpal)%Hmem. unfold f.
    rewrite sub_reverse by lia.
    replace (length s - L - (length s - L - a))%nat with a by lia.
    exact Hpal. }
  rewrite (manacher_from_spec (reverse s) L (reverse (f <$> starts))).
  - rewrite <- !fmap_reverse. f_equal. rewrite <- list_fmap_compose.
    apply Forall_fmap_ext_1, Forall_forall. intros a Ha.
    rewrite elem_of_reverse in Ha. simpl. by apply Htext.
  - unfold int_fits in *. by rewrite length_reverse.
  - change lt with (flip (flip lt)). apply StronglySorted_reverse.
    apply (StronglySorted_fmap_elem lt); [|done].
    intros x y (_ & Hx & _)%Hmem (_ & Hy & _)%Hmem Hxy. unfold flip, f. lia.
  - intros Hnil. apply (f_equal reverse) in Hnil.
    rewrite reverse_involutive in Hnil. by apply fmap_nil_inv in Hnil.
  - intros a. rewrite elem_of_reverse, list_elem_of_fmap. split.
    + intros (b & -> & Hb). pose proof Hb as (HL & Hin & Hpal)%Hmem.
      split; [done|]. split; [rewrite length_reverse; unfold f; lia|].
      rewrite (Htext b Hb). done.
    + intros Ha. pose proof Ha as (HL & Hin & _).
      rewrite length_reverse in Hin.
      exists (length s - L - a)%nat. split; [unfold f; lia|].
      by apply Hmem, pal_substring_reverse.
  - intros a len Ha%pal_substring_reverse. by apply (Hmax _ _ Ha).
Qed.

Lemma manacher_reverse_witness :
  int_fits (lit "abcbd") ∧
  ∃ r, manacher (lit "abcbd") = Ok r ∧
       manacher (reverse (lit "abcbd")) = Ok (reverse r).
Proof.
  assert (int_fits (lit "abcbd")) as Hfits
    by (unfold int_fits, INT_MAX; simpl; lia).
  split; [exact Hfits|].
  exact (manacher_reverse (lit "abcbd") Hfits).
Defined.

(** ** The loops on their own *)

(** X8: the [while] loop of line 41 on any string and radius array.
    Started at a centre [i] whose entry [p[i]] is the radius of a
    palindrome, with a round for every position right of it, the loop
    ends, leaves in [p[i]] the largest radius at [i], never a smaller
    one than it found, and changes no other entry. *)
Theorem expand_contract (fuel : nat) (T : str) (i : Z) (p : list Z) :
  length p = length T →
  0 ≤ i →
  radius_ok T i (rad p i) →
  (Z.to_nat (Z.of_nat (length T) - i - rad p i) ≤ fuel)%nat →
  ∃ p' r,
    expand fuel T (Z.of_nat (length T)) i p = Ok p' ∧
    length p' = length p ∧
    index p' i = Ok r ∧
    rad p i ≤ r ∧
    radius_max T i r ∧
    ∀ j, j ≠ i → index p' j = index p j.
Proof.
  intros Hlen Hi Hok Hfuel.
  destruct (expand_spec T fuel i p) as (p' & Hrun & Hlen' & Hsame & Hle & Hmax);
    [lia|done|done|done|].
  pose proof Hok as (Hr & _ & Hin & _).
  exists p', (rad p' i). split; [done|]. split; [lia|].
  split; [apply index_rad; lia|]. split; [done|]. split; [done|].
  intros j Hj. unfold index. destruct (Z.ltb_spec j 0); [done|].
  specialize (Hsame j ltac:(lia) Hj). unfold rad in Hsame.
  destruct (decide (Z.to_nat j < length p)%nat) as [Hlt|Hge].
  - destruct (lookup_lt_is_Some_2 p (Z.to_nat j) Hlt) as [x Hx].
    destruct (lookup_lt_is_Some_2 p' (Z.to_nat j) ltac:(lia)) as [x' Hx'].
    rewrite Hx, Hx' in *. simpl in Hsame. by subst.
  - rewrite !lookup_ge_None_2 by lia. done.
Qed.

Lemma expand_contract_witness :
  length ([0; 0; 0] : list Z) = length (lit "#a#") ∧
  0 ≤ 1 ∧
  radius_ok (lit "#a#") 1 (rad [0; 0; 0] 1) ∧
  (Z.to_nat (Z.of_nat (length (lit "#a#")) - 1 - rad [0; 0; 0] 1)%Z ≤ 3)%nat ∧
  ∃ p' r,
    expand 3 (lit "#a#") (Z.of_nat (length (lit "#a#"))) 1 [0; 0; 0] = Ok p' ∧
    length p' = length ([0; 0; 0] : list Z) ∧
    index p' 1 = Ok r ∧
    rad [0; 0; 0] 1 ≤ r ∧
    radius_max (lit "#a#") 1 r ∧
    ∀ j, j ≠ 1 → index p' j = index [0; 0; 0] j.
Proof.
  assert (length ([0; 0; 0] : list Z) = length (lit "#a#")) as H1 by reflexivity.
  assert (0 ≤ 1) as H2 by lia.
  assert (radius_ok (lit "#a#") 1 (rad [0; 0; 0] 1)) as H3.
  { apply radius_ok_0. simpl. lia. }
  assert (Z.to_nat (Z.of_nat (length (lit "#a#")) - 1 - rad [0; 0; 0] 1)%Z ≤ 3)%nat
    as H4 by (vm_compute; lia).
  split; [exact H1|]. split; [exact H2|]. split; [exact H3|].
  split; [exact H4|].
  exact (expand_contract 3 (lit "#a#") 1 [0; 0; 0] H1 H2 H3 H4).
Defined.

(** X9: the loop of lines 52-57 on any array: [maxLen] is the largest
    of [0] and the entries at the interior indices [1 .. n - 2]; the two
    boundary entries are not looked at, and the result is never
    negative. *)
Theorem max_radius_contract (p : list Z) :
  ∃ maxLen,
    max_radius (S (length p)) p (Z.of_nat (length p)) = Ok maxLen ∧
    0 ≤ maxLen ∧
    (∀ j r, 1 ≤ j < Z.of_nat (length p) - 1 → index p j = Ok r →
            r ≤ maxLen) ∧
    (maxLen = 0 ∨
     ∃ j, 1 ≤ j < Z.of_nat (length p) - 1 ∧ index p j = Ok maxLen).
Proof.
  destruct (max_radius_spec (S (length p)) p (Z.of_nat (length p)))
    as (m & Hrun & Hm & Hub & Hatt); [done|lia|lia|].
  exists m. split; [done|]. split; [done|]. split.
  - intros j r Hj Hread. rewrite index_rad in Hread by lia.
    injection Hread as <-. by apply Hub.
  - destruct Hatt as [->|(j & Hj & Hjm)]; [by left|].
    right. exists j. split; [done|]. rewrite index_rad by lia. by rewrite Hjm.
Qed.

(** ** The driver *)

Lemma fold_left_print (r : list str) (cout : str) :
  fold_left (λ cout palindrome, cout ++ palindrome ++ lit " ") r cout
  = cout ++ concat ((λ x, x ++ lit " ") <$> r).
Proof.
  revert cout. induction r as [|x r IH]; intros cout; simpl.
  - by rewrite app_nil_r.
  - rewrite IH. by rewrite <- !app_assoc.
Qed.

(** X10: what [run_sample_manacher] writes for a value of its local
    [input] whose transformed length is an [int].  It does not fail; it
    writes the headline with the input between quotes, then "No
    palindromes found." when the input is empty, and otherwise every
    longest palindrome followed by a space; the line ends with a
    newline.  The "No palindromes found." branch is taken for the empty
    input only. *)
Theorem run_sample_reports (input : str) :
  int_fits input →
  ∃ cout r,
    run_sample_manacher_on input = Ok cout ∧
    manacher input = Ok r ∧
    (r = [] ↔ input = []) ∧
    (input = [] →
       cout = lit "Longest palindromic substrings of " ++ [quote] ++ [quote]
                ++ lit ": No palindromes found." ++ [newline]) ∧
    (input ≠ [] →
       cout = lit "Longest palindromic substrings of " ++ [quote] ++ input
                ++ [quote] ++ lit ": "
                ++ concat ((λ x, x ++ lit " ") <$> r) ++ [newline]).
Proof.
  intros Hfits.
  destruct (decide (input = [])) as [->|Hne].
  { eexists _, []. split; [reflexivity|]. split; [reflexivity|].
    split; [done|]. split; [reflexivity|done]. }
  destruct (manacher_positions input Hfits)
    as (L & starts & Hrun & _ & _ & _ & Hstarts).
  specialize (Hstarts Hne).
  unfold run_sample_manacher_on. rewrite Hrun.
  destruct starts as [|a starts]; [done|].
  rewrite fmap_cons. cbv beta iota delta [mbind outcome_bind].
  eexists _, _. split; [reflexivity|]. split; [reflexivity|].
  split; [done|]. split; [done|]. intros _.
  rewrite fold_left_print. by rewrite <- !app_assoc.
Qed.

Lemma run_sample_reports_witness :
  int_fits (lit "abab") ∧
  ∃ cout r,
    run_sample_manacher_on (lit "abab") = Ok cout ∧
    manacher (lit "abab") = Ok r ∧
    (r = [] ↔ lit "abab" = []) ∧
    (lit "abab" = [] →
       cout = lit "Longest palindromic substrings of " ++ [quote] ++ [quote]
                ++ lit ": No palindromes found." ++ [newline]) ∧
    (lit "abab" ≠ [] →
       cout = lit "Longest palindromic substrings of " ++ [quote]
                ++ lit "abab" ++ [quote] ++ lit ": "
                ++ concat ((λ x, x ++ lit " ") <$> r) ++ [newline]).
Proof.
  assert (int_fits (lit "abab")) as Hfits
    by (unfold int_fits, INT_MAX; simpl; lia).
  split; [exact Hfits|].
  exact (run_sample_reports (lit "abab") Hfits).
Defined.

(** X11: the program.  None of the nine assertions of [test_manacher]
    fails, [run_sample_manacher] writes
    [Longest palindromic substrings of "google": goog ] and a newline to
    [cout], and [main] returns 0. *)
Theorem main_exits_0 :
  test_manacher = Passed ∧
  main = Exit 0 (lit "Longest palindromic substrings of " ++ [quote]
                   ++ lit "google" ++ [quote] ++ lit ": goog "
                   ++ [newline]).
Proof. split; vm_compute; reflexivity. Qed.

(** ** Equal texts at different positions *)

Lemma StronglySorted_seq (a m : nat) : StronglySorted lt (seq a m).
Proof.
  revert a. induction m as [|m IH]; intros a; simpl; constructor.
  - apply IH.
  - apply Forall_seq. intros j Hj. lia.
Qed.

Lemma sub_singleton {A : Type} (l : list A) (j : nat) (x : A) :
  l !! j = Some x → sub l j 1 = [x].
Proof. intros Hx. unfold sub. by rewrite (drop_S l x j Hx). Qed.

(** X12: results are kept per position, equal texts included.  When the
    length of the transformed string of [s] is an [int] and no
    palindromic substring of [s] has more than one character, [manacher]
    returns every character of [s] as a one-character string, in order,
    as many times as it occurs. *)
Theorem manacher_single_characters (s : str) :
  int_fits s →
  (∀ a len, pal_substring s a len → (len ≤ 1)%nat) →
  manacher s = Ok ((λ c, [c]) <$> s).
Proof.
  intros Hfits Hmax. destruct (decide (s = [])) as [->|Hs]; [reflexivity|].
  rewrite (manacher_from_spec s 1 (seq 0 (length s)) Hfits).
  - f_equal. apply list_eq. intros j. rewrite !list_lookup_fmap.
    destruct (s !! j) as [x|] eqn:Hx.
    + rewrite lookup_seq_lt by (by apply lookup_lt_Some in Hx).
      simpl. by rewrite (sub_singleton s j x Hx).
    + apply lookup_ge_None in Hx.
      rewrite (lookup_ge_None_2 (seq 0 (length s))); [done|].
      by rewrite length_seq.
  - apply StronglySorted_seq.
  - destruct s; [done|discriminate].
  - intros a. rewrite elem_of_seq. split.
    + intros [_ Ha]. split; [lia|]. split; [lia|].
      destruct (lookup_lt_is_Some_2 s a ltac:(lia)) as [x Hx].
      by rewrite (sub_singleton s a x Hx).
    + intros (_ & Hin & _). lia.
  - exact Hmax.
Qed.

Lemma manacher_single_characters_witness :
  int_fits (lit "abcab") ∧
  (∀ a len, pal_substring (lit "abcab") a len → (len ≤ 1)%nat) ∧
  manacher (lit "abcab")
  = Ok [lit "a"; lit "b"; lit "c"; lit "a"; lit "b"].
Proof.
  assert (int_fits (lit "abcab")) as Hfits
    by (unfold int_fits, INT_MAX; simpl; lia).
  assert (∀ a len, pal_substring (lit "abcab") a len → (len ≤ 1)%nat) as H.
  { intros a len (Hlen & Hin & Hpal). change (length (lit "abcab")) with 5%nat in Hin.
    destruct len as [|[|[|[|[|[|len]]]]]]; try lia;
      destruct a as [|[|[|[|a]]]]; try lia; vm_compute in Hpal; discriminate. }
  split; [exact Hfits|].
  split; [exact H|exact (manacher_single_characters (lit "abcab") Hfits H)].
Defined.

(** ** The narrowed length, on every input *)

(** X13: what the narrowing of line 28 makes of a run, whatever the
    input.  Either the [int] [n] is negative, which takes an input
    whose transformed length is not an [int], and [manacher] throws
    [std::length_error]; or [n = 2 * k + 1] for some [k <= length s] and
    [manacher] returns, and returns what it returns on the first [k]
    characters of [s].  [k] is the length of [s] when [2 * length s + 1]
    is an [int].  In both cases the run ends within its budget of
    rounds. *)
Theorem manacher_narrowing (s : str) :
  (int_length (preprocess s) < 0 ∧ ¬ int_fits s ∧
   manacher s = Fail LengthError) ∨
  ∃ (k : nat) (r : list str),
    (k ≤ length s)%nat ∧
    int_length (preprocess s) = 2 * Z.of_nat k + 1 ∧
    (int_fits s → k = length s) ∧
    manacher s = Ok r ∧
    manacher (take k s) = Ok r.
Proof.
  destruct (int_length_preprocess s) as [Hneg|(k & Hk & Hn & Hfits)].
  { left. split; [done|]. split; [by apply int_length_neg_not_fits|].
    by apply manacher_fuel_length_error. }
  right.
  destruct (manacher_fuel_narrowed (length (preprocess s)) s k Hk Hn)
    as (r & Hr & Hr'); [rewrite length_preprocess; lia|].
  by exists k, r.
Qed.

(** X14: the [int]s of the pass when the length [n] of the transformed
    string is an [int].  Before every round [i] of the pass [0 <= C < i]
    and [0 <= R < n]; the mirror [2 * C - i] and the distance [R - i],
    computed in [int], are the exact ones; every entry [p[j]] is at
    least 0 with [j + (1 + p[j]) <= n], so that no sum or difference of
    the [while] loop leaves [int].  The product [2 * C] itself is exact
    when [n <= 2^30]; beyond, it can wrap around, and the subtraction of
    [i] undoes it. *)
Theorem pass_ints_exact (s : str) (i : Z) (st : pass_state) :
  int_fits s →
  1 ≤ i < Z.of_nat (length (preprocess s)) - 1 →
  for_loop (length (preprocess s)) 1 i
    (pass_body (length (preprocess s)) (preprocess s)
       (int_length (preprocess s)))
    (pass_init (int_length (preprocess s))) = Ok st →
  0 ≤ C st < i ∧
  0 ≤ R st < Z.of_nat (length (preprocess s)) ∧
  int_sub (int_mul 2 (C st)) i = 2 * C st - i ∧
  int_sub (R st) i = R st - i ∧
  (Z.of_nat (length (preprocess s)) ≤ 1073741824 →
   int_mul 2 (C st) = 2 * C st) ∧
  ∀ j pj, index (p st) j = Ok pj →
          0 ≤ pj ∧ j + (1 + pj) ≤ Z.of_nat (length (preprocess s)).
Proof.
  intros Hfits Hi Hloop. pose proof (T_length s) as HT.
  unfold int_fits in Hfits.
  rewrite int_length_small in Hloop by lia.
  assert (int_length (preprocess s) = Z.of_nat (length (preprocess s)))
    as Hm by (apply int_length_small; lia).
  apply pass_round_narrowed in Hloop; [|done|lia|lia].
  rewrite take_ge in Hloop by lia.
  destruct Hloop as (Hlen & Hok & _ & _ & HC & HR).
  pose proof (Hok (C st) ltac:(lia)) as (HpC & HClo & HChi & _).
  split; [lia|]. split; [lia|]. split.
  { apply int_mirror_small. unfold INT_MIN, INT_MAX in *. lia. }
  split.
  { apply int_sub_small. unfold INT_MIN, INT_MAX in *. lia. }
  split.
  { intros Hn. apply to_int_small. unfold INT_MIN, INT_MAX. lia. }
  intros j pj Hread. pose proof Hread as [Hj Hlook]%index_Ok.
  apply lookup_lt_Some in Hlook.
  rewrite index_rad in Hread by lia. injection Hread as <-.
  destruct (Hok j ltac:(lia)) as (? & ? & ? & _). lia.
Qed.

Lemma pass_ints_exact_witness :
  int_fits (lit "aba") ∧
  1 ≤ 2 < Z.of_nat (length (preprocess (lit "aba"))) - 1 ∧
  for_loop (length (preprocess (lit "aba"))) 1 2
    (pass_body (length (preprocess (lit "aba"))) (preprocess (lit "aba"))
       (int_length (preprocess (lit "aba"))))
    (pass_init (int_length (preprocess (lit "aba"))))
  = Ok (PassState [0; 1; 0; 0; 0; 0; 0] 1 2) ∧
  0 ≤ 1 < 2 ∧
  0 ≤ 2 < Z.of_nat (length (preprocess (lit "aba"))) ∧
  int_sub (int_mul 2 1) 2 = 2 * 1 - 2 ∧
  int_sub 2 2 = 2 - 2 ∧
  (Z.of_nat (length (preprocess (lit "aba"))) ≤ 1073741824 →
   int_mul 2 1 = 2 * 1) ∧
  ∀ j pj, index [0; 1; 0; 0; 0; 0; 0] j = Ok pj →
          0 ≤ pj ∧ j + (1 + pj) ≤ Z.of_nat (length (preprocess (lit "aba"))).
Proof.
  assert (int_fits (lit "aba")) as Hfits
    by (unfold int_fits, INT_MAX; simpl; lia).
  assert (1 ≤ 2 < Z.of_nat (length (preprocess (lit "aba"))) - 1) as Hi
    by (simpl; lia).
  assert (for_loop (length (preprocess (lit "aba"))) 1 2
            (pass_body (length (preprocess (lit "aba")))
               (preprocess (lit "aba")) (int_length (preprocess (lit "aba"))))
            (pass_init (int_length (preprocess (lit "aba"))))
          = Ok (PassState [0; 1; 0; 0; 0; 0; 0] 1 2)) as Hloop
    by (vm_compute; reflexivity).
  split; [exact Hfits|]. split; [exact Hi|]. split; [exact Hloop|].
  exact (pass_ints_exact (lit "aba") 2 (PassState [0; 1; 0; 0; 0; 0; 0] 1 2)
           Hfits Hi Hloop).
Defined.
